(** * A shallow embedding of [interview::ThreadSafeLRUCache]
    (include/lru_cache.hpp) and the properties of its sequential behaviour.

    The cache owns a [std::list<CacheEntry>] ordered by recency (head = most
    recently used) and a [std::unordered_map<Key, EntryList::iterator>].

    - A [std::list] iterator is the address of a list node: it stays valid
      while the node lives, whatever happens to the other nodes.  The list is
      therefore a sequence of (address, entry) pairs; [splice] and [erase] act
      on the node that has the given address.
    - The index is a finite map from keys to node addresses.
    - [size_t] and [uint64_t] are 64-bit: counters are [N] with the
      wrap-around of [fetch_add] written out.
    - [std::chrono::steady_clock::now()] reads the environment: the n-th
      reading of the clock is [steady_clock_now n] and the world counts the
      readings that were made.
    - A node that [emplace_front] allocates gets an address that no live
      node has ([new_node]).
    - Undefined behaviour of the C++ code (dereferencing or erasing an
      iterator that is not in the list, [std::prev(end())] on an empty list)
      is the failure [None] of the monad [M].
    - [cache_mutex_] is not modelled: a member function holds it from its
      first statement after the clock reading to its return, and the
      development is about member functions that run one after the other.
    - The two [double] fields of [CacheMetrics] are left out of the snapshot. *)

From stdpp Require Import gmap strings list.
From Stdlib Require Import ZArith NArith Lia.

Module interview.

(** ** Errors *)

(** [class CacheException : public std::runtime_error]: the only exception
    type of the header; it carries the [what()] message. *)
Inductive CacheException : Type :=
  | CacheException_what (what : string).

(** ** Fixed-width arithmetic *)

Definition SIZE_WIDTH : N := 64.

(** [std::atomic<size_t>::fetch_add] and [atomic<uint64_t>::fetch_add]:
    the new value of the counter. *)
Definition fetch_add (counter delta : N) : N :=
  ((counter + delta) mod 2 ^ SIZE_WIDTH)%N.

(** [static_cast<uint64_t>] of a signed nanosecond count. *)
Definition to_uint64 (d : Z) : N := Z.to_N (d mod 2 ^ 64).

(** [struct CacheMetrics], without its [double] fields. *)
Module CacheMetrics.
Record t : Type := {
  hits : N;
  misses : N;
  current_size : N;
  capacity : N;
}.
End CacheMetrics.

Declare Scope member_scope.
Delimit Scope member_scope with member.

Section Cache.

Context {Key : Type} `{Countable Key} {Value : Type}.

(** The n-th value returned by [std::chrono::steady_clock::now()]. *)
Variable steady_clock_now : nat -> Z.

(** ** Data *)

Record CacheEntry : Type := {
  key : Key;
  value : Value;
  access_time : Z;
}.

(** [EntryList::iterator]: the address of a list node. *)
Definition EntryIterator : Type := nat.

(** [std::list<CacheEntry>]: the nodes from [begin()] to [end()]. *)
Definition EntryList : Type := list (EntryIterator * CacheEntry).

Record ThreadSafeLRUCache : Type := {
  capacity_ : N;
  lru_list_ : EntryList;
  index_ : gmap Key EntryIterator;
  hit_count_ : N;
  miss_count_ : N;
  total_access_time_ns_ : N;
}.

(** The cache object together with the part of the environment its member
    functions read: the number of clock readings made so far. *)
Record World : Type := {
  self : ThreadSafeLRUCache;
  clock_reads : nat;
}.

(** ** The list operations the cache uses *)

Definition with_value (v : Value) (e : CacheEntry) : CacheEntry :=
  {| key := key e; value := v; access_time := access_time e |}.

(** [l.begin()]; [None] is [l.end()]. *)
Definition list_begin (l : EntryList) : option EntryIterator :=
  fst <$> head l.

(** [*it]: the entry of the node at [it]. *)
Fixpoint list_deref (it : EntryIterator) (l : EntryList) : option CacheEntry :=
  match l with
  | [] => None
  | (a, e) :: l' => if decide (a = it) then Some e else list_deref it l'
  end.

(** The nodes other than the one at [it], in their order. *)
Fixpoint list_unlink (it : EntryIterator) (l : EntryList) : EntryList :=
  match l with
  | [] => []
  | (a, e) :: l' =>
      if decide (a = it) then list_unlink it l' else (a, e) :: list_unlink it l'
  end.

(** [l.erase(it)]. *)
Definition list_erase (it : EntryIterator) (l : EntryList) : option EntryList :=
  match list_deref it l with
  | Some _ => Some (list_unlink it l)
  | None => None
  end.

(** [l.splice(l.begin(), l, it)]: the node at [it] is relinked in front. *)
Definition list_splice_begin (it : EntryIterator) (l : EntryList) : option EntryList :=
  match list_deref it l with
  | Some e => Some ((it, e) :: list_unlink it l)
  | None => None
  end.

(** [it->value = v]. *)
Fixpoint list_assign_value (it : EntryIterator) (v : Value) (l : EntryList)
  : option EntryList :=
  match l with
  | [] => None
  | (a, e) :: l' =>
      if decide (a = it) then Some ((a, with_value v e) :: l')
      else cons (a, e) <$> list_assign_value it v l'
  end.

(** The address of a freshly allocated node: one no live node has. *)
Definition new_node (l : EntryList) : EntryIterator :=
  S (foldr Nat.max 0 (l.*1)).

(** [l.emplace_front(k, v)], the entry being constructed at clock reading
    [t]. *)
Definition list_emplace_front (k : Key) (v : Value) (t : Z) (l : EntryList)
  : EntryList :=
  (new_node l, {| key := k; value := v; access_time := t |}) :: l.

(** [std::prev(l.end())]: the last node. *)
Definition list_prev_end (l : EntryList) : option (EntryIterator * CacheEntry) :=
  last l.

(** ** The monad of member functions: state and undefined behaviour *)

Definition M (A : Type) : Type := World -> option (A * World).

Definition ret {A} (a : A) : M A := fun w => Some (a, w).

Definition bind {A B} (m : M A) (k : A -> M B) : M B :=
  fun w => match m w with
           | Some (a, w') => k a w'
           | None => None
           end.

Definition undefined {A} : M A := fun _ => None.

Notation "x <- m ;; k" := (bind m (fun x => k))
  (at level 20, m at level 99, k at level 200, only parsing) : member_scope.
Notation "m ;; k" := (bind m (fun _ => k))
  (at level 100, k at level 200, only parsing, right associativity) : member_scope.
Local Open Scope member_scope.

Definition read {A} (f : ThreadSafeLRUCache -> A) : M A :=
  fun w => Some (f (self w), w).

Definition update (f : ThreadSafeLRUCache -> ThreadSafeLRUCache) : M unit :=
  fun w => Some (tt, {| self := f (self w); clock_reads := clock_reads w |}).

Definition lift {A} (o : option A) : M A :=
  match o with
  | Some a => ret a
  | None => undefined
  end.

Definition now : M Z :=
  fun w => Some (steady_clock_now (clock_reads w),
                 {| self := self w; clock_reads := S (clock_reads w) |}).

Definition set_lru_list (l : EntryList) (c : ThreadSafeLRUCache) : ThreadSafeLRUCache :=
  {| capacity_ := capacity_ c; lru_list_ := l; index_ := index_ c;
     hit_count_ := hit_count_ c; miss_count_ := miss_count_ c;
     total_access_time_ns_ := total_access_time_ns_ c |}.

Definition set_index (m : gmap Key EntryIterator) (c : ThreadSafeLRUCache)
  : ThreadSafeLRUCache :=
  {| capacity_ := capacity_ c; lru_list_ := lru_list_ c; index_ := m;
     hit_count_ := hit_count_ c; miss_count_ := miss_count_ c;
     total_access_time_ns_ := total_access_time_ns_ c |}.

Definition set_hit_count (n : N) (c : ThreadSafeLRUCache) : ThreadSafeLRUCache :=
  {| capacity_ := capacity_ c; lru_list_ := lru_list_ c; index_ := index_ c;
     hit_count_ := n; miss_count_ := miss_count_ c;
     total_access_time_ns_ := total_access_time_ns_ c |}.

Definition set_miss_count (n : N) (c : ThreadSafeLRUCache) : ThreadSafeLRUCache :=
  {| capacity_ := capacity_ c; lru_list_ := lru_list_ c; index_ := index_ c;
     hit_count_ := hit_count_ c; miss_count_ := n;
     total_access_time_ns_ := total_access_time_ns_ c |}.

Definition set_total_access_time_ns (n : N) (c : ThreadSafeLRUCache)
  : ThreadSafeLRUCache :=
  {| capacity_ := capacity_ c; lru_list_ := lru_list_ c; index_ := index_ c;
     hit_count_ := hit_count_ c; miss_count_ := miss_count_ c;
     total_access_time_ns_ := n |}.

(** ** The member functions *)

(** The constructor: throws when [capacity == 0]. *)
Definition construct (capacity : N) : CacheException + ThreadSafeLRUCache :=
  if (capacity =? 0)%N
  then inl (CacheException_what "Cache capacity must be greater than 0")
  else inr {| capacity_ := capacity; lru_list_ := []; index_ := ∅;
              hit_count_ := 0; miss_count_ := 0; total_access_time_ns_ := 0 |}.

Definition record_access_time : M Z := now.

Definition update_access_metrics (start_time : Z) : M unit :=
  end_time <- now;;
  let duration_ns := (end_time - start_time)%Z in
  update (fun c => set_total_access_time_ns
                     (fetch_add (total_access_time_ns_ c) (to_uint64 duration_ns)) c).

Definition move_to_front_unsafe (it : EntryIterator) : M unit :=
  l <- read lru_list_;;
  if decide (Some it ≠ list_begin l)
  then l' <- lift (list_splice_begin it l);; update (set_lru_list l')
  else ret tt.

(** One iteration of the loop of [evict_if_needed_unsafe] per unit of
    [fuel]; every iteration unlinks a node, so that more iterations than the
    list has nodes are never asked for (lemma [evict_loop_fuel]). *)
Fixpoint evict_loop (fuel : nat) : M unit :=
  l <- read lru_list_;;
  cap <- read capacity_;;
  if (cap <=? N.of_nat (length l))%N then
    match fuel with
    | O => undefined
    | S fuel' =>
        l <- read lru_list_;;
        last <- lift (list_prev_end l);;
        update (fun c => set_index (delete (key last.2) (index_ c)) c);;
        l <- read lru_list_;;
        l' <- lift (list_erase last.1 l);;
        update (set_lru_list l');;
        evict_loop fuel'
    end
  else ret tt.

Definition evict_if_needed_unsafe : M unit :=
  l <- read lru_list_;;
  evict_loop (S (length l)).

Definition get (k : Key) : M (option Value) :=
  start_time <- record_access_time;;
  it <- read (fun c => index_ c !! k);;
  match it with
  | None =>
      update (fun c => set_miss_count (fetch_add (miss_count_ c) 1) c);;
      update_access_metrics start_time;;
      ret None
  | Some it =>
      update (fun c => set_hit_count (fetch_add (hit_count_ c) 1) c);;
      move_to_front_unsafe it;;
      l <- read lru_list_;;
      e <- lift (list_deref it l);;
      let result := value e in
      update_access_metrics start_time;;
      ret (Some result)
  end.

Definition put (k : Key) (v : Value) : M bool :=
  start_time <- record_access_time;;
  it <- read (fun c => index_ c !! k);;
  match it with
  | Some it =>
      l <- read lru_list_;;
      l' <- lift (list_assign_value it v l);;
      update (set_lru_list l');;
      move_to_front_unsafe it;;
      update_access_metrics start_time;;
      ret true
  | None =>
      evict_if_needed_unsafe;;
      t <- now;;
      update (fun c => set_lru_list (list_emplace_front k v t (lru_list_ c)) c);;
      l <- read lru_list_;;
      front <- lift (head l);;
      update (fun c => set_index (<[key front.2 := front.1]> (index_ c)) c);;
      update_access_metrics start_time;;
      ret true
  end.

Definition remove (k : Key) : M bool :=
  it <- read (fun c => index_ c !! k);;
  match it with
  | None => ret false
  | Some it =>
      l <- read lru_list_;;
      l' <- lift (list_erase it l);;
      update (set_lru_list l');;
      update (fun c => set_index (delete k (index_ c)) c);;
      ret true
  end.

Definition contains (k : Key) : M bool :=
  it <- read (fun c => index_ c !! k);;
  ret (bool_decide (is_Some it)).

Definition size : M N :=
  l <- read lru_list_;; ret (N.of_nat (length l)).

Definition capacity : M N := read capacity_.

Definition empty : M bool :=
  l <- read lru_list_;; ret (bool_decide (l = [])).

Definition clear : M unit :=
  update (set_lru_list []);;
  update (set_index ∅).

Definition get_metrics : M CacheMetrics.t :=
  h <- read hit_count_;;
  m <- read miss_count_;;
  l <- read lru_list_;;
  cap <- read capacity_;;
  ret {| CacheMetrics.hits := h; CacheMetrics.misses := m;
         CacheMetrics.current_size := N.of_nat (length l);
         CacheMetrics.capacity := cap |}.

Definition reset_metrics : M unit :=
  update (set_hit_count 0);;
  update (set_miss_count 0);;
  update (set_total_access_time_ns 0).

(** ** Callers: sequences of calls on one cache *)

Inductive Op : Type :=
  | OpGet (k : Key)
  | OpPut (k : Key) (v : Value)
  | OpRemove (k : Key)
  | OpContains (k : Key)
  | OpSize
  | OpCapacity
  | OpEmpty
  | OpClear
  | OpGetMetrics
  | OpResetMetrics.

Inductive Result : Type :=
  | RValue (o : option Value)
  | RBool (b : bool)
  | RSize (n : N)
  | RUnit
  | RMetrics (m : CacheMetrics.t).

Definition call (op : Op) : M Result :=
  match op with
  | OpGet k => o <- get k;; ret (RValue o)
  | OpPut k v => b <- put k v;; ret (RBool b)
  | OpRemove k => b <- remove k;; ret (RBool b)
  | OpContains k => b <- contains k;; ret (RBool b)
  | OpSize => n <- size;; ret (RSize n)
  | OpCapacity => n <- capacity;; ret (RSize n)
  | OpEmpty => b <- empty;; ret (RBool b)
  | OpClear => clear;; ret RUnit
  | OpGetMetrics => m <- get_metrics;; ret (RMetrics m)
  | OpResetMetrics => reset_metrics;; ret RUnit
  end.

(** The calls of [ops] one after the other; the results in call order. *)
Fixpoint run (ops : list Op) : M (list Result) :=
  match ops with
  | [] => ret []
  | op :: ops' => r <- call op;; rs <- run ops';; ret (r :: rs)
  end.

(** The world that holds the cache [c] after [n] readings of the clock. *)
Definition world (c : ThreadSafeLRUCache) (n : nat) : World :=
  {| self := c; clock_reads := n |}.

(** The keys of the entries, from head (most recently used) to tail. *)
Definition keys_of (l : EntryList) : list Key := (fun n => key n.2) <$> l.

Definition keys (c : ThreadSafeLRUCache) : list Key := keys_of (lru_list_ c).

(** ** Invariants *)

(** The list [l] and the index [m] describe the same entries: node addresses
    are pairwise distinct, keys are pairwise distinct, and the index maps a
    key to an address exactly when the node at that address holds the key. *)
Definition linked (l : EntryList) (m : gmap Key EntryIterator) : Prop :=
  NoDup l.*1 ∧ NoDup (keys_of l) ∧
  ∀ k it, m !! k = Some it ↔ ∃ e, (it, e) ∈ l ∧ key e = k.

(** The invariant of the structural state as the data model words it: the
    keys of the index are the keys of the sequence, no key occurs twice in
    the sequence, and the locator of a key designates the node that holds
    it (locators being the addresses of distinct nodes). *)
Definition structure_inv (c : ThreadSafeLRUCache) : Prop :=
  dom (index_ c) = list_to_set (keys c) ∧
  NoDup (keys c) ∧
  NoDup (lru_list_ c).*1 ∧
  ∀ k it, index_ c !! k = Some it →
          ∃ e, list_deref it (lru_list_ c) = Some e ∧ key e = k.

(** The invariant of a constructed cache. *)
Record cache_inv (c : ThreadSafeLRUCache) : Prop := {
  inv_capacity : (0 < capacity_ c)%N;
  inv_size : (N.of_nat (length (lru_list_ c)) <= capacity_ c)%N;
  inv_linked : linked (lru_list_ c) (index_ c);
}.

(** The world after a call that read the clock at readings [n] and [m] and
    charged the elapsed time to the latency accumulator. *)
Definition charged (n m : nat) (c : ThreadSafeLRUCache) : ThreadSafeLRUCache :=
  set_total_access_time_ns
    (fetch_add (total_access_time_ns_ c)
               (to_uint64 (steady_clock_now m - steady_clock_now n))) c.

(** The number of [get] calls of [ops] after its last [reset_metrics]:
    a running count that a [get] increments and a [reset_metrics] zeroes. *)
Definition count_get (issued : nat) (op : Op) : nat :=
  match op with
  | OpGet _ => S issued
  | OpResetMetrics => 0
  | _ => issued
  end.

Definition gets_since_reset (ops : list Op) : nat :=
  fold_left count_get ops 0.

(** How a call of [op] moves the hit and miss counters, from [c] to [c']. *)
Definition counters_step (op : Op) (c c' : ThreadSafeLRUCache) : Prop :=
  match op with
  | OpGet _ =>
      hit_count_ c' = fetch_add (hit_count_ c) 1 ∧ miss_count_ c' = miss_count_ c
      ∨ hit_count_ c' = hit_count_ c ∧ miss_count_ c' = fetch_add (miss_count_ c) 1
  | OpResetMetrics =>
      hit_count_ c' = 0%N ∧ miss_count_ c' = 0%N ∧ total_access_time_ns_ c' = 0%N
  | _ => hit_count_ c' = hit_count_ c ∧ miss_count_ c' = miss_count_ c
  end.

(** The recency order as the specification words it (section 4.1), on the
    bare list of keys, most recently used first: a hit of [get] and a [put]
    of a present key move the key to the head; a [put] of an absent key
    inserts it at the head, after dropping the tail when the size has
    reached the capacity; [remove] takes the key out; [clear] empties. *)
Definition lru_touch (k : Key) (ks : list Key) : list Key :=
  k :: filter (fun k' => k' ≠ k) ks.

Definition lru_order_after (cap : N) (op : Op) (ks : list Key) : list Key :=
  match op with
  | OpGet k => if decide (k ∈ ks) then lru_touch k ks else ks
  | OpPut k _ =>
      if decide (k ∈ ks) then lru_touch k ks
      else if (N.of_nat (length ks) <? cap)%N then k :: ks
           else k :: removelast ks
  | OpRemove k => filter (fun k' => k' ≠ k) ks
  | OpClear => []
  | _ => ks
  end.

(** The entries without their timestamps: address, key and value of every
    node, from head to tail. *)
Definition untimed (l : EntryList) : list (EntryIterator * Key * Value) :=
  (fun n => (n.1, key n.2, value n.2)) <$> l.

(** Two caches that differ at most in the timestamps of their entries and
    in their latency accumulators. *)
Definition same_structure (c1 c2 : ThreadSafeLRUCache) : Prop :=
  capacity_ c1 = capacity_ c2 ∧
  untimed (lru_list_ c1) = untimed (lru_list_ c2) ∧
  index_ c1 = index_ c2 ∧
  hit_count_ c1 = hit_count_ c2 ∧
  miss_count_ c1 = miss_count_ c2.

(** The key and the value of every entry, from head to tail, and the finite
    map they make up: what the cache holds, its order put aside. *)
Definition entries_of (l : EntryList) : list (Key * Value) :=
  (fun n => (key n.2, value n.2)) <$> l.

Definition entries (c : ThreadSafeLRUCache) : list (Key * Value) :=
  entries_of (lru_list_ c).

Definition contents_of (l : EntryList) : gmap Key Value :=
  list_to_map (entries_of l).

Definition contents (c : ThreadSafeLRUCache) : gmap Key Value :=
  contents_of (lru_list_ c).

Ltac member_unfold :=
  cbv [bind read update lift ret undefined now world record_access_time
       update_access_metrics self clock_reads].

(** ** Facts about the list operations *)

Lemma list_deref_None it (l : EntryList) :
  list_deref it l = None ↔ it ∉ l.*1.
Proof.
  induction l as [|[a e] l IH]; simpl.
  - split; [intros _; apply not_elem_of_nil|done].
  - destruct (decide (a = it)) as [->|Hne].
    + split; [done|]. intros Hn. exfalso. apply Hn. left.
    + rewrite IH, not_elem_of_cons. split; [done|by intros [_ ?]].
Qed.

Lemma list_deref_split it (l : EntryList) e :
  list_deref it l = Some e →
  ∃ l1 l2, l = l1 ++ (it, e) :: l2 ∧ it ∉ l1.*1.
Proof.
  induction l as [|[a e'] l IH]; simpl; [done|].
  destruct (decide (a = it)) as [->|Hne].
  - intros [= ->]. exists [], l. split; [done|apply not_elem_of_nil].
  - intros Hd. destruct (IH Hd) as (l1 & l2 & -> & Hn).
    exists ((a, e') :: l1), l2. split; [done|].
    simpl. rewrite not_elem_of_cons. done.
Qed.

Lemma list_deref_middle (l1 l2 : EntryList) it e :
  it ∉ l1.*1 → list_deref it (l1 ++ (it, e) :: l2) = Some e.
Proof.
  induction l1 as [|[a e'] l1 IH]; simpl; intros Hn.
  - by rewrite decide_True.
  - apply not_elem_of_cons in Hn as [Hne Hn].
    rewrite decide_False by done. by apply IH.
Qed.

Lemma list_deref_elem_of it (l : EntryList) e :
  list_deref it l = Some e → (it, e) ∈ l.
Proof.
  intros Hd. destruct (list_deref_split _ _ _ Hd) as (l1 & l2 & -> & _).
  apply elem_of_app. right. left.
Qed.

Lemma list_unlink_notin it (l : EntryList) :
  it ∉ l.*1 → list_unlink it l = l.
Proof.
  induction l as [|[a e] l IH]; simpl; [done|]. intros Hn.
  apply not_elem_of_cons in Hn as [Hne Hn].
  rewrite decide_False by done. by rewrite IH.
Qed.

Lemma list_unlink_app it (l1 l2 : EntryList) :
  list_unlink it (l1 ++ l2) = list_unlink it l1 ++ list_unlink it l2.
Proof.
  induction l1 as [|[a e] l1 IH]; simpl; [done|].
  destruct (decide (a = it)); simpl; by rewrite IH.
Qed.

Lemma list_unlink_middle (l1 l2 : EntryList) it e :
  it ∉ l1.*1 → it ∉ l2.*1 →
  list_unlink it (l1 ++ (it, e) :: l2) = l1 ++ l2.
Proof.
  intros H1 H2. rewrite list_unlink_app. simpl.
  rewrite decide_True by done. by rewrite !list_unlink_notin.
Qed.

Lemma length_list_unlink it (l : EntryList) :
  length (list_unlink it l) ≤ length l.
Proof.
  induction l as [|[a e] l IH]; simpl; [done|].
  destruct (decide (a = it)); simpl; lia.
Qed.

Lemma length_list_unlink_deref it (l : EntryList) e :
  list_deref it l = Some e → length (list_unlink it l) < length l.
Proof.
  intros Hd. destruct (list_deref_split _ _ _ Hd) as (l1 & l2 & -> & _).
  rewrite list_unlink_app. simpl. rewrite decide_True by done.
  pose proof (length_list_unlink it l1). pose proof (length_list_unlink it l2).
  rewrite !length_app. simpl. lia.
Qed.

Lemma list_assign_value_middle (l1 l2 : EntryList) it e v :
  it ∉ l1.*1 →
  list_assign_value it v (l1 ++ (it, e) :: l2)
  = Some (l1 ++ (it, with_value v e) :: l2).
Proof.
  induction l1 as [|[a e'] l1 IH]; simpl; intros Hn.
  - by rewrite decide_True.
  - apply not_elem_of_cons in Hn as [Hne Hn].
    rewrite decide_False by done. by rewrite IH.
Qed.

Lemma NoDup_middle_notin {A B} (f : A → B) (l1 l2 : list A) x :
  NoDup (f <$> (l1 ++ x :: l2)) → (f x ∉ f <$> l1) ∧ (f x ∉ f <$> l2).
Proof.
  rewrite fmap_app, fmap_cons. intros Hnd.
  apply NoDup_app in Hnd as (_ & Hd & Hnd2).
  apply NoDup_cons in Hnd2 as [Hx _]. split; [|done].
  intros Hin. apply (Hd _ Hin). left.
Qed.

Lemma NoDup_fmap_elem_inj {A B} (f : A → B) (l : list A) x y :
  NoDup (f <$> l) → x ∈ l → y ∈ l → f x = f y → x = y.
Proof.
  induction l as [|z l IH]; simpl; intros Hnd Hx Hy Hf.
  - by apply elem_of_nil in Hx.
  - apply NoDup_cons in Hnd as [Hz Hnd].
    apply elem_of_cons in Hx as [->|Hx]; apply elem_of_cons in Hy as [->|Hy].
    + done.
    + exfalso. apply Hz. rewrite Hf. by apply list_elem_of_fmap_2.
    + exfalso. apply Hz. rewrite <- Hf. by apply list_elem_of_fmap_2.
    + by apply IH.
Qed.

Lemma foldr_max_le (xs : list nat) x : x ∈ xs → x ≤ foldr Nat.max 0 xs.
Proof.
  induction xs as [|y xs IH]; simpl.
  - intros Hx. by apply elem_of_nil in Hx.
  - intros [->|Hx]%elem_of_cons; [lia|]. specialize (IH Hx). lia.
Qed.

Lemma new_node_fresh (l : EntryList) : new_node l ∉ l.*1.
Proof.
  intros Hin. apply foldr_max_le in Hin. unfold new_node in Hin. lia.
Qed.

Lemma last_Some_app {A} (l : list A) x :
  last l = Some x → ∃ l0, l = l0 ++ [x].
Proof.
  intros Hl. destruct l as [|y l _] using rev_ind; [done|].
  rewrite last_snoc in Hl. injection Hl as ->. by exists l.
Qed.

(** ** Facts about [linked] *)

Lemma linked_nil : linked [] ∅.
Proof.
  split; [constructor|]. split; [constructor|].
  intros k it. rewrite lookup_empty. split; [done|].
  intros (e & He & _). by apply elem_of_nil in He.
Qed.

Lemma linked_perm (l l' : EntryList) m : l ≡ₚ l' → linked l m → linked l' m.
Proof.
  intros Hp (Ha & Hk & Hi). unfold linked, keys_of in *.
  rewrite <- Hp. split; [done|]. split; [done|].
  intros k it. rewrite Hi. by setoid_rewrite Hp.
Qed.

Lemma linked_key_notin (l : EntryList) m k :
  linked l m → m !! k = None → k ∉ keys_of l.
Proof.
  intros (_ & _ & Hi) Hm Hin. unfold keys_of in Hin.
  apply list_elem_of_fmap in Hin as ([a e] & -> & Hin).
  assert (m !! key e = Some a) as Hs by (apply Hi; eauto).
  simpl in Hm. congruence.
Qed.

Lemma linked_cons (l : EntryList) m a e :
  linked l m → a ∉ l.*1 → m !! key e = None →
  linked ((a, e) :: l) (<[key e := a]> m).
Proof.
  intros Hl Ha Hm. pose proof (linked_key_notin _ _ _ Hl Hm) as Hk.
  destruct Hl as (Hna & Hnk & Hi).
  split; [by apply NoDup_cons|]. split; [by apply NoDup_cons|].
  intros k it. rewrite lookup_insert. case_decide as Hd.
  - subst k. split.
    + intros [= <-]. exists e. split; [left|done].
    + intros (e' & [Heq|Hin]%elem_of_cons & Hke).
      * by injection Heq as -> ->.
      * exfalso. apply Hk. unfold keys_of. apply list_elem_of_fmap.
        by exists (it, e').
  - rewrite Hi. split.
    + intros (e' & Hin & Hke). exists e'. split; [by right|done].
    + intros (e' & [Heq|Hin]%elem_of_cons & Hke).
      * injection Heq as -> ->. done.
      * by exists e'.
Qed.

Lemma linked_remove (l1 l2 : EntryList) m it e :
  linked (l1 ++ (it, e) :: l2) m → linked (l1 ++ l2) (delete (key e) m).
Proof.
  intros Hl. apply (linked_perm _ ((it, e) :: l1 ++ l2)) in Hl;
    [|by rewrite Permutation_middle].
  destruct Hl as (Hna & Hnk & Hi). simpl in Hna, Hnk.
  apply NoDup_cons in Hna as [Ha Hna]. apply NoDup_cons in Hnk as [Hk Hnk].
  split; [done|]. split; [done|].
  intros k a. rewrite lookup_delete. case_decide as Hd.
  - subst k. split; [done|]. intros (e' & Hin & Hke). exfalso. apply Hk.
    apply list_elem_of_fmap. by exists (a, e').
  - rewrite Hi. split.
    + intros (e' & [Heq|Hin]%elem_of_cons & Hke).
      * injection Heq as -> ->. done.
      * by exists e'.
    + intros (e' & Hin & Hke). exists e'. split; [by right|done].
Qed.

Lemma linked_assign (l1 l2 : EntryList) m it e v :
  linked (l1 ++ (it, e) :: l2) m →
  linked (l1 ++ (it, with_value v e) :: l2) m.
Proof.
  intros (Hna & Hnk & Hi). unfold linked, keys_of in *.
  assert ((l1 ++ (it, with_value v e) :: l2).*1 = (l1 ++ (it, e) :: l2).*1)
    as -> by (by rewrite !fmap_app).
  assert ((λ n, key n.2) <$> l1 ++ (it, with_value v e) :: l2
          = (λ n, key n.2) <$> l1 ++ (it, e) :: l2)
    as -> by (by rewrite !fmap_app).
  split; [done|]. split; [done|].
  intros k a. rewrite Hi. split.
  - intros (e' & Hin & Hke).
    apply elem_of_app in Hin as [Hin|[Heq|Hin]%elem_of_cons].
    + exists e'. split; [|done]. apply elem_of_app. by left.
    + injection Heq as -> ->. exists (with_value v e). split; [|done].
      apply elem_of_app. right. left.
    + exists e'. split; [|done]. apply elem_of_app. right. by right.
  - intros (e' & Hin & Hke).
    apply elem_of_app in Hin as [Hin|[Heq|Hin]%elem_of_cons].
    + exists e'. split; [|done]. apply elem_of_app. by left.
    + injection Heq as -> ->. exists e. split; [|done].
      apply elem_of_app. right. left.
    + exists e'. split; [|done]. apply elem_of_app. right. by right.
Qed.

(** A node of the list is the one the index gives for its key. *)
Lemma linked_elem_of (l : EntryList) m it e :
  linked l m → (it, e) ∈ l →
  ∃ l1 l2, m !! key e = Some it ∧ l = l1 ++ (it, e) :: l2 ∧
           (it ∉ l1.*1) ∧ (it ∉ l2.*1).
Proof.
  intros (Hna & Hnk & Hi) Hin.
  assert (m !! key e = Some it) as Hm by (apply Hi; by exists e).
  apply list_elem_of_split in Hin as (l1 & l2 & ->).
  destruct (NoDup_middle_notin fst _ _ _ Hna) as [H1 H2].
  by exists l1, l2.
Qed.

(** A key of the index leads to its node, and to that node only. *)
Lemma linked_lookup (l : EntryList) m k it :
  linked l m → m !! k = Some it →
  ∃ e l1 l2, l = l1 ++ (it, e) :: l2 ∧ key e = k ∧
             (it ∉ l1.*1) ∧ (it ∉ l2.*1) ∧ (k ∉ keys_of l1) ∧ (k ∉ keys_of l2).
Proof.
  intros (Hna & Hnk & Hi) Hm. apply Hi in Hm as (e & Hin & Hke).
  apply list_elem_of_split in Hin as (l1 & l2 & ->).
  exists e, l1, l2. split; [done|]. split; [done|].
  destruct (NoDup_middle_notin fst _ _ _ Hna) as [H1 H2].
  destruct (NoDup_middle_notin (fun n => key n.2) _ _ _ Hnk) as [H3 H4].
  simpl in *. subst k. done.
Qed.

Lemma linked_lookup_None (l : EntryList) m k :
  linked l m → m !! k = None ↔ k ∉ keys_of l.
Proof.
  intros Hl. split; [by apply linked_key_notin|].
  intros Hk. destruct (m !! k) as [it|] eqn:Hm; [|done].
  exfalso. apply Hk. destruct Hl as (_ & _ & Hi).
  apply Hi in Hm as (e & Hin & <-). apply list_elem_of_fmap. by exists (it, e).
Qed.

Lemma linked_structure_inv (c : ThreadSafeLRUCache) :
  linked (lru_list_ c) (index_ c) ↔ structure_inv c.
Proof.
  unfold structure_inv, keys. split.
  - intros Hl. pose proof Hl as (Hna & Hnk & Hi).
    split; [|split; [done|split; [done|]]].
    + apply set_eq. intros k. rewrite elem_of_dom, elem_of_list_to_set.
      split.
      * intros [it Hit]. apply Hi in Hit as (e & Hin & <-).
        apply list_elem_of_fmap. by exists (it, e).
      * intros Hk. destruct (index_ c !! k) eqn:Hm; [done|].
        by apply (linked_lookup_None _ _ k Hl) in Hm.
    + intros k it Hm.
      destruct (linked_lookup _ _ _ _ Hl Hm) as (e & l1 & l2 & -> & Hk & H1 & _).
      exists e. split; [by apply list_deref_middle|done].
  - intros (Hdom & Hnk & Hna & Hd).
    split; [done|]. split; [done|].
    intros k it. split.
    + intros Hm. destruct (Hd _ _ Hm) as (e & He & Hk).
      exists e. split; [by apply list_deref_elem_of|done].
    + intros (e & Hin & Hk).
      assert (k ∈ dom (index_ c)) as Hkd.
      { rewrite Hdom, elem_of_list_to_set. apply list_elem_of_fmap.
        by exists (it, e). }
      apply elem_of_dom in Hkd as [it' Hit'].
      destruct (Hd _ _ Hit') as (e' & He' & Hk').
      apply list_deref_elem_of in He'.
      assert ((it, e) = (it', e')) as Heq; [|congruence].
      eapply (NoDup_fmap_elem_inj (fun n : EntryIterator * CacheEntry => key n.2));
        [exact Hnk|done|done|simpl; congruence].
Qed.

(** ** What each member function computes *)

Lemma bind_Some {A B} (m : M A) (k : A → M B) w a w' :
  m w = Some (a, w') → bind m k w = k a w'.
Proof. unfold bind. by intros ->. Qed.

Lemma move_to_front_spec c n (l1 l2 : EntryList) it e :
  lru_list_ c = l1 ++ (it, e) :: l2 → it ∉ l1.*1 → it ∉ l2.*1 →
  move_to_front_unsafe it (world c n)
  = Some (tt, world (set_lru_list ((it, e) :: l1 ++ l2) c) n).
Proof.
  intros Hl H1 H2.
  unfold move_to_front_unsafe, bind, read, world. simpl. rewrite Hl.
  destruct (decide (Some it ≠ list_begin (l1 ++ (it, e) :: l2))) as [Hb|Hb].
  - unfold list_splice_begin.
    rewrite list_deref_middle, list_unlink_middle by done. done.
  - destruct l1 as [|[a e'] l1].
    + unfold ret, set_lru_list. destruct c; simpl in *. by rewrite Hl.
    + exfalso. apply Hb. unfold list_begin. simpl. intros [= <-].
      apply H1. simpl. left.
Qed.

Lemma get_miss c n k :
  index_ c !! k = None →
  get k (world c n)
  = Some (None, world (charged n (S n)
                         (set_miss_count (fetch_add (miss_count_ c) 1) c))
                      (S (S n))).
Proof.
  intros Hm. unfold get. member_unfold. rewrite Hm. done.
Qed.

Lemma get_hit c n k it (l1 l2 : EntryList) e :
  index_ c !! k = Some it →
  lru_list_ c = l1 ++ (it, e) :: l2 → it ∉ l1.*1 → it ∉ l2.*1 →
  get k (world c n)
  = Some (Some (value e),
          world (charged n (S n)
                   (set_lru_list ((it, e) :: l1 ++ l2)
                      (set_hit_count (fetch_add (hit_count_ c) 1) c)))
                (S (S n))).
Proof.
  intros Hm Hl H1 H2.
  pose proof (move_to_front_spec (set_hit_count (fetch_add (hit_count_ c) 1) c)
                (S n) l1 l2 it e Hl H1 H2) as Hmv.
  unfold get. member_unfold. rewrite Hm. unfold world in Hmv. rewrite Hmv.
  simpl. rewrite decide_True by done. done.
Qed.

Lemma put_present c n k v it (l1 l2 : EntryList) e :
  index_ c !! k = Some it →
  lru_list_ c = l1 ++ (it, e) :: l2 → it ∉ l1.*1 → it ∉ l2.*1 →
  put k v (world c n)
  = Some (true,
          world (charged n (S n)
                   (set_lru_list ((it, with_value v e) :: l1 ++ l2) c))
                (S (S n))).
Proof.
  intros Hm Hl H1 H2.
  pose proof (move_to_front_spec
                (set_lru_list (l1 ++ (it, with_value v e) :: l2) c)
                (S n) l1 l2 it (with_value v e) eq_refl H1 H2) as Hmv.
  unfold put. member_unfold. rewrite Hm, Hl.
  rewrite list_assign_value_middle by done.
  unfold world in Hmv. rewrite Hmv. done.
Qed.

Lemma remove_absent c n k :
  index_ c !! k = None → remove k (world c n) = Some (false, world c n).
Proof.
  intros Hm. unfold remove. member_unfold. by rewrite Hm.
Qed.

Lemma remove_present c n k it (l1 l2 : EntryList) e :
  index_ c !! k = Some it →
  lru_list_ c = l1 ++ (it, e) :: l2 → it ∉ l1.*1 → it ∉ l2.*1 →
  remove k (world c n)
  = Some (true,
          world (set_index (delete k (index_ c)) (set_lru_list (l1 ++ l2) c)) n).
Proof.
  intros Hm Hl H1 H2. unfold remove. member_unfold.
  rewrite Hm, Hl. unfold list_erase.
  rewrite list_deref_middle, list_unlink_middle by done. done.
Qed.

(** *** Eviction *)

Lemma evict_loop_unfold fuel w :
  evict_loop fuel w
  = if (capacity_ (self w) <=? N.of_nat (length (lru_list_ (self w))))%N then
      match fuel with
      | O => None
      | S fuel' =>
          match list_prev_end (lru_list_ (self w)) with
          | None => None
          | Some last =>
              match list_erase last.1 (lru_list_ (self w)) with
              | None => None
              | Some l' =>
                  evict_loop fuel'
                    (world (set_lru_list l'
                              (set_index (delete (key last.2) (index_ (self w)))
                                         (self w)))
                           (clock_reads w))
              end
          end
      end
    else Some (tt, w).
Proof.
  destruct fuel; simpl; member_unfold; unfold id;
    destruct (capacity_ _ <=? _)%N; try done.
  destruct (list_prev_end _) as [last|]; [|done]. simpl.
  destruct (list_erase _ _); done.
Qed.

(** The node [std::prev(end())] designates is the last one, and erasing it
    leaves the nodes before it. *)
Lemma list_erase_last (l0 : EntryList) it e :
  NoDup (l0 ++ [(it, e)]).*1 →
  list_prev_end (l0 ++ [(it, e)]) = Some (it, e) ∧
  list_erase it (l0 ++ [(it, e)]) = Some l0.
Proof.
  intros Hnd. destruct (NoDup_middle_notin fst _ _ _ Hnd) as [H1 H2].
  split; [apply last_snoc|]. unfold list_erase.
  rewrite list_deref_middle, list_unlink_middle by done.
  by rewrite app_nil_r.
Qed.

(** Whatever the number of iterations, the loop keeps list and index
    linked, touches nothing else, only drops keys, and leaves room for one
    more entry. *)
Lemma evict_loop_linked fuel c n w' :
  linked (lru_list_ c) (index_ c) →
  evict_loop fuel (world c n) = Some (tt, w') →
  linked (lru_list_ (self w')) (index_ (self w')) ∧
  clock_reads w' = n ∧
  capacity_ (self w') = capacity_ c ∧
  hit_count_ (self w') = hit_count_ c ∧
  miss_count_ (self w') = miss_count_ c ∧
  total_access_time_ns_ (self w') = total_access_time_ns_ c ∧
  (N.of_nat (length (lru_list_ (self w'))) < capacity_ c)%N ∧
  (∀ k, index_ c !! k = None → index_ (self w') !! k = None) ∧
  (∃ dropped, lru_list_ c = lru_list_ (self w') ++ dropped).
Proof.
  revert c. induction fuel as [|fuel IH]; intros c Hl;
    rewrite evict_loop_unfold; simpl;
    destruct (capacity_ c <=? N.of_nat (length (lru_list_ c)))%N eqn:Hcap;
    try done.
  - intros [= <-]. simpl. apply N.leb_gt in Hcap.
    split_and!; try done. exists []. by rewrite app_nil_r.
  - destruct (list_prev_end (lru_list_ c)) as [[it e]|] eqn:Hlast; [|done].
    apply last_Some_app in Hlast as [l0 Hl0]. simpl.
    pose proof Hl as (Hna & _ & _). rewrite Hl0 in Hna.
    destruct (list_erase_last _ _ _ Hna) as [_ He]. rewrite Hl0, He.
    intros Hrun. apply IH in Hrun; simpl.
    + simpl in Hrun.
      destruct Hrun as (H1 & H2 & H3 & H4 & H5 & H6 & H7 & H8 & [d H9]).
      split_and!; try done.
      * intros k Hk. apply H8. rewrite lookup_delete.
        by case_decide.
      * exists (d ++ [(it, e)]). by rewrite app_assoc, <- H9.
    + rewrite Hl0 in Hl. apply linked_remove in Hl. by rewrite app_nil_r in Hl.
  - intros [= <-]. simpl. apply N.leb_gt in Hcap.
    split_and!; try done. exists []. by rewrite app_nil_r.
Qed.

(** The loop never runs out of iterations: any two budgets larger than the
    list give the same outcome. *)
Lemma evict_loop_fuel fuel1 fuel2 w :
  length (lru_list_ (self w)) < fuel1 →
  length (lru_list_ (self w)) < fuel2 →
  evict_loop fuel1 w = evict_loop fuel2 w.
Proof.
  revert fuel2 w. induction fuel1 as [|fuel1 IH]; intros fuel2 w H1 H2; [lia|].
  destruct fuel2 as [|fuel2]; [lia|].
  rewrite (evict_loop_unfold (S fuel1)), (evict_loop_unfold (S fuel2)).
  destruct (capacity_ _ <=? _)%N; [|done].
  destruct (list_prev_end _) as [[it e]|]; [|done]. simpl.
  unfold list_erase. destruct (list_deref it _) as [e'|] eqn:Hd; [|done].
  apply length_list_unlink_deref in Hd. apply IH; simpl; lia.
Qed.

Lemma evict_room c n :
  (N.of_nat (length (lru_list_ c)) < capacity_ c)%N →
  evict_if_needed_unsafe (world c n) = Some (tt, world c n).
Proof.
  intros Hlt. unfold evict_if_needed_unsafe.
  rewrite (bind_Some _ _ _ (lru_list_ c) (world c n)) by done.
  rewrite evict_loop_unfold. simpl.
  by apply N.leb_gt in Hlt as ->.
Qed.

(** A full cache loses exactly its last node. *)
Lemma evict_full c n (l0 : EntryList) it e :
  cache_inv c →
  N.of_nat (length (lru_list_ c)) = capacity_ c →
  lru_list_ c = l0 ++ [(it, e)] →
  evict_if_needed_unsafe (world c n)
  = Some (tt, world (set_lru_list l0
                       (set_index (delete (key e) (index_ c)) c)) n).
Proof.
  intros [Hcap Hsz (Hna & _)] Hfull Hl0. unfold evict_if_needed_unsafe.
  rewrite (bind_Some _ _ _ (lru_list_ c) (world c n)) by done.
  rewrite evict_loop_unfold. simpl.
  assert ((capacity_ c <=? N.of_nat (length (lru_list_ c)))%N = true) as ->
    by (apply N.leb_le; lia).
  rewrite Hl0 in Hna. destruct (list_erase_last _ _ _ Hna) as [Hp He].
  rewrite Hl0, Hp. simpl. rewrite He.
  rewrite evict_loop_unfold. simpl.
  assert ((capacity_ c <=? N.of_nat (length l0))%N = false) as ->; [|done].
  apply N.leb_gt. rewrite <- Hfull, Hl0, length_app. simpl. lia.
Qed.

Lemma put_absent c n k v c1 :
  index_ c !! k = None →
  evict_if_needed_unsafe (world c (S n)) = Some (tt, world c1 (S n)) →
  put k v (world c n)
  = Some (true,
          world (charged n (S (S n))
                   (set_index (<[k := new_node (lru_list_ c1)]> (index_ c1))
                      (set_lru_list
                         (list_emplace_front k v (steady_clock_now (S n))
                            (lru_list_ c1)) c1)))
                (S (S (S n)))).
Proof.
  intros Hm Hev. unfold put.
  cbv [bind read record_access_time now world self clock_reads].
  rewrite Hm. unfold world in Hev. rewrite Hev. done.
Qed.

Lemma put_absent_room c n k v :
  index_ c !! k = None →
  (N.of_nat (length (lru_list_ c)) < capacity_ c)%N →
  put k v (world c n)
  = Some (true,
          world (charged n (S (S n))
                   (set_index (<[k := new_node (lru_list_ c)]> (index_ c))
                      (set_lru_list
                         (list_emplace_front k v (steady_clock_now (S n))
                            (lru_list_ c)) c)))
                (S (S (S n)))).
Proof.
  intros Hm Hlt. by apply put_absent, evict_room.
Qed.

Lemma put_absent_full c n k v (l0 : EntryList) it e :
  cache_inv c →
  index_ c !! k = None →
  N.of_nat (length (lru_list_ c)) = capacity_ c →
  lru_list_ c = l0 ++ [(it, e)] →
  put k v (world c n)
  = Some (true,
          world (charged n (S (S n))
                   (set_index (<[k := new_node l0]> (delete (key e) (index_ c)))
                      (set_lru_list
                         (list_emplace_front k v (steady_clock_now (S n)) l0)
                         (set_lru_list l0
                            (set_index (delete (key e) (index_ c)) c)))))
                (S (S (S n)))).
Proof.
  intros Hinv Hm Hfull Hl0.
  by rewrite (put_absent c n k v _ Hm (evict_full c (S n) l0 it e Hinv Hfull Hl0)).
Qed.

(** ** The invariants are kept *)

Lemma evict_total c n :
  cache_inv c →
  ∃ c1, evict_if_needed_unsafe (world c n) = Some (tt, world c1 n).
Proof.
  intros Hinv. pose proof Hinv as [Hcap Hsz Hl].
  destruct (decide (N.of_nat (length (lru_list_ c)) < capacity_ c)%N) as [Hlt|Hge].
  - exists c. by apply evict_room.
  - destruct (lru_list_ c) as [|x l _] eqn:Hlist using rev_ind.
    { simpl in Hge. lia. }
    destruct x as [it e]. eexists. eapply evict_full; [done| |done].
    rewrite Hlist. lia.
Qed.

Lemma evict_linked c n w1 :
  linked (lru_list_ c) (index_ c) →
  evict_if_needed_unsafe (world c n) = Some (tt, w1) →
  linked (lru_list_ (self w1)) (index_ (self w1)) ∧
  clock_reads w1 = n ∧
  capacity_ (self w1) = capacity_ c ∧
  hit_count_ (self w1) = hit_count_ c ∧
  miss_count_ (self w1) = miss_count_ c ∧
  total_access_time_ns_ (self w1) = total_access_time_ns_ c ∧
  (N.of_nat (length (lru_list_ (self w1))) < capacity_ c)%N ∧
  (∀ k, index_ c !! k = None → index_ (self w1) !! k = None) ∧
  (∃ dropped, lru_list_ c = lru_list_ (self w1) ++ dropped).
Proof.
  intros Hl. unfold evict_if_needed_unsafe.
  rewrite (bind_Some _ _ _ (lru_list_ c) (world c n)) by done.
  by apply evict_loop_linked.
Qed.

Lemma get_linked c n k :
  linked (lru_list_ c) (index_ c) →
  ∃ o c', get k (world c n) = Some (o, world c' (S (S n))) ∧
          linked (lru_list_ c') (index_ c') ∧
          length (lru_list_ c') = length (lru_list_ c) ∧
          capacity_ c' = capacity_ c ∧
          (o = None ∧ hit_count_ c' = hit_count_ c ∧
             miss_count_ c' = fetch_add (miss_count_ c) 1
           ∨ o ≠ None ∧ hit_count_ c' = fetch_add (hit_count_ c) 1 ∧
             miss_count_ c' = miss_count_ c).
Proof.
  intros Hl. destruct (index_ c !! k) as [it|] eqn:Hm.
  - destruct (linked_lookup _ _ _ _ Hl Hm) as (e & l1 & l2 & Hl12 & _ & H1 & H2 & _).
    eexists _, _. split; [by eapply get_hit|]. simpl. split_and!; try done.
    + rewrite Hl12 in Hl. eapply linked_perm; [|done].
      by rewrite Permutation_middle.
    + rewrite Hl12. simpl. rewrite ?length_app. simpl. lia.
    + by right.
  - eexists _, _. split; [by apply get_miss|]. simpl. split_and!; try done.
    by left.
Qed.

Lemma remove_linked c n k :
  linked (lru_list_ c) (index_ c) →
  ∃ b c', remove k (world c n) = Some (b, world c' n) ∧
          linked (lru_list_ c') (index_ c') ∧
          length (lru_list_ c') ≤ length (lru_list_ c) ∧
          capacity_ c' = capacity_ c ∧
          hit_count_ c' = hit_count_ c ∧ miss_count_ c' = miss_count_ c.
Proof.
  intros Hl. destruct (index_ c !! k) as [it|] eqn:Hm.
  - destruct (linked_lookup _ _ _ _ Hl Hm) as (e & l1 & l2 & Hl12 & Hk & H1 & H2 & _).
    eexists _, _. split; [by eapply remove_present|]. simpl. split_and!; try done.
    + rewrite Hl12 in Hl. rewrite <- Hk. by eapply linked_remove.
    + rewrite Hl12. simpl. rewrite ?length_app. simpl. lia.
  - eexists _, _. split; [by apply remove_absent|]. done.
Qed.

Lemma put_linked c n k v b w' :
  linked (lru_list_ c) (index_ c) →
  put k v (world c n) = Some (b, w') →
  b = true ∧
  linked (lru_list_ (self w')) (index_ (self w')) ∧
  capacity_ (self w') = capacity_ c ∧
  hit_count_ (self w') = hit_count_ c ∧
  miss_count_ (self w') = miss_count_ c ∧
  (N.of_nat (length (lru_list_ (self w')))
   <= N.max (N.of_nat (length (lru_list_ c))) (capacity_ c))%N.
Proof.
  intros Hl. destruct (index_ c !! k) as [it|] eqn:Hm.
  - destruct (linked_lookup _ _ _ _ Hl Hm) as (e & l1 & l2 & Hl12 & _ & H1 & H2 & _).
    rewrite (put_present c n k v it l1 l2 e) by done.
    intros [= <- <-]. simpl. split_and!; try done.
    + rewrite Hl12 in Hl. apply (linked_assign _ _ _ _ _ v) in Hl.
      eapply linked_perm; [|done]. by rewrite Permutation_middle.
    + rewrite Hl12. simpl. rewrite ?length_app. simpl. lia.
  - destruct (evict_if_needed_unsafe (world c (S n))) as [[[] w1]|] eqn:Hev.
    + destruct (evict_linked _ _ _ Hl Hev)
        as (Hl1 & Hclk & Hc & Hh & Hmi & _ & Hlen & Hdrop & _).
      destruct w1 as [c1 n1]. simpl in *. subst n1.
      rewrite (put_absent c n k v c1) by done.
      intros [= <- <-]. simpl. split_and!; try done.
      * apply (linked_cons _ _ _ {| key := k; value := v;
                                     access_time := steady_clock_now (S n) |});
          [done|apply new_node_fresh|by apply Hdrop].
      * lia.
    + unfold put. cbv [bind read record_access_time now world self clock_reads].
      rewrite Hm. unfold world in Hev. by rewrite Hev.
Qed.

Lemma put_total c n k v :
  cache_inv c → ∃ c' n', put k v (world c n) = Some (true, world c' n').
Proof.
  intros Hinv. pose proof Hinv as [_ _ Hl].
  destruct (index_ c !! k) as [it|] eqn:Hm.
  - destruct (linked_lookup _ _ _ _ Hl Hm) as (e & l1 & l2 & Hl12 & _ & H1 & H2 & _).
    eexists _, _. by eapply put_present.
  - destruct (evict_total c (S n) Hinv) as [c1 Hev].
    eexists _, _. by eapply put_absent.
Qed.

Lemma call_linked c n op r w' :
  linked (lru_list_ c) (index_ c) →
  call op (world c n) = Some (r, w') →
  linked (lru_list_ (self w')) (index_ (self w')) ∧
  capacity_ (self w') = capacity_ c ∧
  counters_step op c (self w') ∧
  (N.of_nat (length (lru_list_ (self w')))
   <= N.max (N.of_nat (length (lru_list_ c))) (capacity_ c))%N.
Proof.
  intros Hl. destruct op as [k|k v|k|k| | | | | |]; unfold call, counters_step.
  - destruct (get_linked c n k Hl) as (o & c' & Hg & Hl' & Hlen & Hc & Hcnt).
    rewrite (bind_Some _ _ _ _ _ Hg). intros [= <- <-]. simpl.
    split_and!; [done|done| |lia].
    destruct Hcnt as [(_ & -> & ->)|(_ & -> & ->)]; [by right|by left].
  - destruct (put k v (world c n)) as [[b w1]|] eqn:Hp.
    + rewrite (bind_Some _ _ _ _ _ Hp). intros [= <- <-].
      destruct (put_linked _ _ _ _ _ _ Hl Hp) as (_ & ? & ? & ? & ? & ?).
      split_and!; assumption.
    + unfold bind. by rewrite Hp.
  - destruct (remove_linked c n k Hl) as (b & c' & Hg & Hl' & Hlen & Hc & Hcnt).
    rewrite (bind_Some _ _ _ _ _ Hg). intros [= <- <-]. simpl.
    split_and!; try done; lia.
  - intros [= <- <-]. simpl. split_and!; try done; lia.
  - intros [= <- <-]. simpl. split_and!; try done; lia.
  - intros [= <- <-]. simpl. split_and!; try done; lia.
  - intros [= <- <-]. simpl. split_and!; try done; lia.
  - intros [= <- <-]. simpl. split_and!; try done; [apply linked_nil|lia].
  - intros [= <- <-]. simpl. split_and!; try done; lia.
  - intros [= <- <-]. simpl. split_and!; try done; lia.
Qed.

Lemma call_total c n op :
  cache_inv c → ∃ r c' n', call op (world c n) = Some (r, world c' n').
Proof.
  intros Hinv. pose proof Hinv as [_ _ Hl].
  destruct op as [k|k v|k|k| | | | | |]; unfold call.
  - destruct (get_linked c n k Hl) as (o & c' & Hg & _).
    rewrite (bind_Some _ _ _ _ _ Hg). by eexists _, _, _.
  - destruct (put_total c n k v Hinv) as (c' & n' & Hp).
    rewrite (bind_Some _ _ _ _ _ Hp). by eexists _, _, _.
  - destruct (remove_linked c n k Hl) as (b & c' & Hg & _).
    rewrite (bind_Some _ _ _ _ _ Hg). by eexists _, _, _.
  - by eexists _, _, _.
  - by eexists _, _, _.
  - by eexists _, _, _.
  - by eexists _, _, _.
  - by eexists _, _, _.
  - by eexists _, _, _.
  - by eexists _, _, _.
Qed.

Lemma call_inv c n op :
  cache_inv c →
  ∃ r c' n', call op (world c n) = Some (r, world c' n') ∧
             cache_inv c' ∧ capacity_ c' = capacity_ c ∧ counters_step op c c'.
Proof.
  intros Hinv. destruct (call_total c n op Hinv) as (r & c' & n' & Hc).
  exists r, c', n'. split; [done|]. destruct Hinv as [Hcap Hsz Hl].
  destruct (call_linked _ _ _ _ _ Hl Hc) as (Hl' & Hcap' & Hcnt & Hlen).
  simpl in *. split_and!; [|done|done]. constructor; [lia|lia|done].
Qed.

Lemma construct_inr C c :
  construct C = inr c →
  c = {| capacity_ := C; lru_list_ := []; index_ := ∅; hit_count_ := 0;
         miss_count_ := 0; total_access_time_ns_ := 0 |} ∧ (0 < C)%N.
Proof.
  unfold construct. destruct (C =? 0)%N eqn:HC; [done|].
  intros [= <-]. apply N.eqb_neq in HC. split; [done|lia].
Qed.

Lemma construct_inv C c : construct C = inr c → cache_inv c.
Proof.
  intros [-> HC]%construct_inr. constructor; simpl; [done|lia|apply linked_nil].
Qed.

Lemma run_inv c n ops :
  cache_inv c →
  ∃ rs c' n', run ops (world c n) = Some (rs, world c' n') ∧
              cache_inv c' ∧ capacity_ c' = capacity_ c.
Proof.
  revert c n. induction ops as [|op ops IH]; intros c n Hinv; simpl.
  - by exists [], c, n.
  - destruct (call_inv c n op Hinv) as (r & c1 & n1 & Hc & Hinv1 & Hcap1 & _).
    destruct (IH c1 n1 Hinv1) as (rs & c2 & n2 & Hr & Hinv2 & Hcap2).
    exists (r :: rs), c2, n2.
    rewrite (bind_Some _ _ _ _ _ Hc), (bind_Some _ _ _ _ _ Hr).
    split; [done|]. split; [done|congruence].
Qed.

Lemma fetch_add_1 (x : N) : (x + 1 < 2 ^ 64)%N → fetch_add x 1 = (x + 1)%N.
Proof. intros Hx. unfold fetch_add, SIZE_WIDTH. by apply N.mod_small. Qed.

(** The counters follow the running count of [get] calls as long as that
    count fits the counters' width. *)
Lemma run_counters ops c n g rs w :
  cache_inv c →
  ((N.of_nat g < 2 ^ 64)%N → (hit_count_ c + miss_count_ c)%N = N.of_nat g) →
  run ops (world c n) = Some (rs, w) →
  (N.of_nat (fold_left count_get ops g) < 2 ^ 64)%N →
  (hit_count_ (self w) + miss_count_ (self w))%N
  = N.of_nat (fold_left count_get ops g).
Proof.
  revert c n g rs. induction ops as [|op ops IH]; intros c n g rs Hinv Hg; simpl.
  - intros [= <- <-] Hlt. simpl. by apply Hg.
  - destruct (call_inv c n op Hinv) as (r & c1 & n1 & Hc & Hinv1 & _ & Hcnt).
    rewrite (bind_Some _ _ _ _ _ Hc).
    destruct (run ops (world c1 n1)) as [[rs1 w1]|] eqn:Hr; [|by unfold bind; rewrite Hr].
    rewrite (bind_Some _ _ _ _ _ Hr). intros [= <- <-].
    apply (IH c1 n1 (count_get g op) rs1); [done| |done].
    intros Hlt. destruct op; simpl in *; try (destruct Hcnt as [-> ->]; by apply Hg).
    + assert (hit_count_ c + miss_count_ c = N.of_nat g)%N as Hsum
        by (apply Hg; lia).
      destruct Hcnt as [[-> ->]|[-> ->]]; rewrite fetch_add_1; lia.
    + destruct Hcnt as (-> & -> & _). done.
Qed.

Lemma add_mod_succ (a b g m : N) :
  ((a + b) mod m = g mod m →
   ((a + 1) mod m + b) mod m = (g + 1) mod m)%N.
Proof.
  intros Hg. rewrite N.Div0.add_mod_idemp_l.
  replace (a + 1 + b)%N with (a + b + 1)%N by lia.
  rewrite <- N.Div0.add_mod_idemp_l, Hg. by rewrite N.Div0.add_mod_idemp_l.
Qed.

(** Whatever the number of calls, the counters follow the running count of
    [get] calls modulo the width of the counters. *)
Lemma run_counters_mod ops c n g rs w :
  cache_inv c →
  ((hit_count_ c + miss_count_ c) mod 2 ^ 64 = N.of_nat g mod 2 ^ 64)%N →
  run ops (world c n) = Some (rs, w) →
  ((hit_count_ (self w) + miss_count_ (self w)) mod 2 ^ 64
   = N.of_nat (fold_left count_get ops g) mod 2 ^ 64)%N.
Proof.
  revert c n g rs. induction ops as [|op ops IH]; intros c n g rs Hinv Hg; simpl.
  - by intros [= <- <-].
  - destruct (call_inv c n op Hinv) as (r & c1 & n1 & Hc & Hinv1 & _ & Hcnt).
    rewrite (bind_Some _ _ _ _ _ Hc).
    destruct (run ops (world c1 n1)) as [[rs1 w1]|] eqn:Hr; [|by unfold bind; rewrite Hr].
    rewrite (bind_Some _ _ _ _ _ Hr). intros [= <- <-].
    apply (IH c1 n1 (count_get g op) rs1); [done| |done].
    destruct op; simpl in *; try (by destruct Hcnt as [-> ->]).
    + rewrite Nat2N.inj_succ, <- N.add_1_r. unfold fetch_add, SIZE_WIDTH in Hcnt.
      destruct Hcnt as [[-> ->]|[-> ->]].
      * by apply add_mod_succ.
      * rewrite (N.add_comm (hit_count_ c)). apply add_mod_succ.
        by rewrite N.add_comm.
    + by destruct Hcnt as (-> & -> & _).
Qed.

Lemma contains_spec c n k :
  contains k (world c n)
  = Some (bool_decide (is_Some (index_ c !! k)), world c n).
Proof. done. Qed.

Lemma contains_false c n k :
  contains k (world c n) = Some (false, world c n) ↔ index_ c !! k = None.
Proof.
  rewrite contains_spec. split.
  - intros [= Hb]. apply bool_decide_eq_false in Hb.
    by apply eq_None_not_Some.
  - intros ->. done.
Qed.

Lemma contains_true c n k :
  contains k (world c n) = Some (true, world c n) ↔ is_Some (index_ c !! k).
Proof.
  rewrite contains_spec. split.
  - intros [= Hb]. by apply bool_decide_eq_true in Hb.
  - intros Hs. by rewrite bool_decide_true.
Qed.

(** Where the nodes of the list come from: after a call, a node is a node
    of the list before the call, with its key and its timestamp, or it is
    the node [put] created for a key that was absent, stamped with the clock
    reading made while constructing the entry. *)
Lemma call_nodes c n op r w' it' e' :
  linked (lru_list_ c) (index_ c) →
  call op (world c n) = Some (r, w') →
  (it', e') ∈ lru_list_ (self w') →
  (∃ e0, (it', e0) ∈ lru_list_ c ∧ key e0 = key e' ∧
         access_time e0 = access_time e')
  ∨ ((key e' ∉ keys c) ∧ (∃ v, op = OpPut (key e') v) ∧
     access_time e' = steady_clock_now (S n)).
Proof.
  intros Hl Hc Hin. destruct op as [k|k v|k|k| | | | | |]; unfold call in Hc;
    try (injection Hc as _ <-; simpl in Hin; left; by exists e').
  - destruct (index_ c !! k) as [it|] eqn:Hm.
    + destruct (linked_lookup _ _ _ _ Hl Hm) as (e & l1 & l2 & Hl12 & _ & H1 & H2 & _).
      rewrite (bind_Some _ _ _ _ _ (get_hit c n k it l1 l2 e Hm Hl12 H1 H2)) in Hc.
      injection Hc as _ <-. simpl in Hin. left. exists e'. split; [|done].
      by rewrite Hl12, <- Permutation_middle.
    + rewrite (bind_Some _ _ _ _ _ (get_miss c n k Hm)) in Hc.
      injection Hc as _ <-. left. by exists e'.
  - destruct (index_ c !! k) as [it|] eqn:Hm.
    + destruct (linked_lookup _ _ _ _ Hl Hm) as (e & l1 & l2 & Hl12 & _ & H1 & H2 & _).
      rewrite (bind_Some _ _ _ _ _ (put_present c n k v it l1 l2 e Hm Hl12 H1 H2)) in Hc.
      injection Hc as _ <-. simpl in Hin. left.
      apply elem_of_cons in Hin as [[= -> ->]|Hin].
      * exists e. split; [|done]. rewrite Hl12, <- Permutation_middle. left.
      * exists e'. split; [|done]. rewrite Hl12, <- Permutation_middle.
        by right.
    + destruct (evict_if_needed_unsafe (world c (S n))) as [[[] [c1 n1]]|] eqn:Hev.
      * destruct (evict_linked _ _ _ Hl Hev)
          as (_ & Hclk & _ & _ & _ & _ & _ & _ & [d Hd]).
        simpl in *. subst n1.
        rewrite (bind_Some _ _ _ _ _ (put_absent c n k v c1 Hm Hev)) in Hc.
        injection Hc as _ <-. simpl in Hin. unfold list_emplace_front in Hin.
        apply elem_of_cons in Hin as [[= -> ->]|Hin].
        -- right. simpl. split; [by eapply linked_key_notin|]. split; [by exists v|done].
        -- left. exists e'. split; [|done]. rewrite Hd. apply elem_of_app.
           by left.
      * exfalso. unfold put in Hc. revert Hc.
        cbv [bind read record_access_time now world self clock_reads].
        rewrite Hm. unfold world in Hev. by rewrite Hev.
  - destruct (index_ c !! k) as [it|] eqn:Hm.
    + destruct (linked_lookup _ _ _ _ Hl Hm) as (e & l1 & l2 & Hl12 & _ & H1 & H2 & _).
      rewrite (bind_Some _ _ _ _ _ (remove_present c n k it l1 l2 e Hm Hl12 H1 H2)) in Hc.
      injection Hc as _ <-. simpl in Hin. left. exists e'. split; [|done].
      rewrite Hl12, <- Permutation_middle. by right.
    + rewrite (bind_Some _ _ _ _ _ (remove_absent c n k Hm)) in Hc.
      injection Hc as _ <-. left. by exists e'.
  - injection Hc as _ <-. simpl in Hin. by apply elem_of_nil in Hin.
Qed.

(** *** The same, in terms of the list operations *)

Lemma get_hit_fn c n k it :
  linked (lru_list_ c) (index_ c) → index_ c !! k = Some it →
  ∃ e, list_deref it (lru_list_ c) = Some e ∧ key e = k ∧
       get k (world c n)
       = Some (Some (value e),
               world (charged n (S n)
                        (set_lru_list ((it, e) :: list_unlink it (lru_list_ c))
                           (set_hit_count (fetch_add (hit_count_ c) 1) c)))
                     (S (S n))).
Proof.
  intros Hl Hm.
  destruct (linked_lookup _ _ _ _ Hl Hm) as (e & l1 & l2 & Hl12 & Hk & H1 & H2 & _).
  exists e. rewrite Hl12 at 1 2.
  rewrite list_deref_middle, list_unlink_middle by done.
  split; [done|]. split; [done|]. by apply get_hit.
Qed.

Lemma put_present_fn c n k v it :
  linked (lru_list_ c) (index_ c) → index_ c !! k = Some it →
  ∃ e, list_deref it (lru_list_ c) = Some e ∧ key e = k ∧
       put k v (world c n)
       = Some (true,
               world (charged n (S n)
                        (set_lru_list
                           ((it, with_value v e) :: list_unlink it (lru_list_ c))
                           c))
                     (S (S n))).
Proof.
  intros Hl Hm.
  destruct (linked_lookup _ _ _ _ Hl Hm) as (e & l1 & l2 & Hl12 & Hk & H1 & H2 & _).
  exists e. rewrite Hl12 at 1 2.
  rewrite list_deref_middle, list_unlink_middle by done.
  split; [done|]. split; [done|]. by apply put_present.
Qed.

Lemma remove_present_fn c n k it :
  linked (lru_list_ c) (index_ c) → index_ c !! k = Some it →
  remove k (world c n)
  = Some (true,
          world (set_index (delete k (index_ c))
                   (set_lru_list (list_unlink it (lru_list_ c)) c)) n).
Proof.
  intros Hl Hm.
  destruct (linked_lookup _ _ _ _ Hl Hm) as (e & l1 & l2 & Hl12 & Hk & H1 & H2 & _).
  rewrite Hl12 at 1. rewrite list_unlink_middle by done.
  by eapply remove_present.
Qed.

(** ** Entries without their timestamps *)

Lemma untimed_fst (l : EntryList) : (fun x => x.1.1) <$> untimed l = l.*1.
Proof. unfold untimed. by rewrite <- list_fmap_compose. Qed.

Lemma untimed_keys (l : EntryList) : (fun x => x.1.2) <$> untimed l = keys_of l.
Proof. unfold untimed, keys_of. by rewrite <- list_fmap_compose. Qed.

Lemma untimed_length (l1 l2 : EntryList) :
  untimed l1 = untimed l2 → length l1 = length l2.
Proof.
  intros Hu. apply (f_equal length) in Hu. unfold untimed in Hu.
  by rewrite !length_fmap in Hu.
Qed.

Lemma untimed_new_node (l1 l2 : EntryList) :
  untimed l1 = untimed l2 → new_node l1 = new_node l2.
Proof.
  intros Hu. unfold new_node. by rewrite <- !untimed_fst, Hu.
Qed.

Lemma untimed_deref (l1 l2 : EntryList) it :
  untimed l1 = untimed l2 →
  (fun e => (key e, value e)) <$> list_deref it l1
  = (fun e => (key e, value e)) <$> list_deref it l2.
Proof.
  revert l2. induction l1 as [|[a1 e1] l1 IH]; intros [|[a2 e2] l2]; simpl;
    try done.
  intros [= -> Hk Hv Hu]. destruct (decide (a2 = it)); simpl.
  - by rewrite Hk, Hv.
  - by apply IH.
Qed.

Lemma untimed_unlink (l1 l2 : EntryList) it :
  untimed l1 = untimed l2 →
  untimed (list_unlink it l1) = untimed (list_unlink it l2).
Proof.
  revert l2. induction l1 as [|[a1 e1] l1 IH]; intros [|[a2 e2] l2]; simpl;
    try done.
  intros [= -> Hk Hv Hu]. destruct (decide (a2 = it)); simpl.
  - by apply IH.
  - rewrite Hk, Hv. f_equal. by apply IH.
Qed.

Lemma untimed_last (l1 l2 : EntryList) :
  untimed l1 = untimed l2 →
  (fun n => (n.1, key n.2)) <$> last l1 = (fun n => (n.1, key n.2)) <$> last l2.
Proof.
  intros Hu. apply (f_equal last) in Hu. unfold untimed in Hu.
  rewrite !fmap_last in Hu.
  destruct (last l1) as [[a1 e1]|], (last l2) as [[a2 e2]|]; simpl in *;
    try done.
  by injection Hu as -> -> _.
Qed.

Lemma untimed_linked (l1 l2 : EntryList) m :
  untimed l1 = untimed l2 → linked l1 m → linked l2 m.
Proof.
  intros Hu (Hna & Hnk & Hi). unfold linked.
  rewrite <- untimed_fst, <- untimed_keys, <- Hu, untimed_fst, untimed_keys.
  split; [done|]. split; [done|].
  assert (∀ (l : EntryList) k it,
            (∃ e, (it, e) ∈ l ∧ key e = k)
            ↔ (it, k) ∈ (fun x => (x.1.1, x.1.2)) <$> untimed l) as Hmem.
  { intros l k it. unfold untimed. rewrite <- list_fmap_compose.
    rewrite list_elem_of_fmap. split.
    - intros (e & Hin & <-). by exists (it, e).
    - intros ([a e] & [= -> ->] & Hin). by exists e. }
  intros k it. by rewrite Hi, !Hmem, Hu.
Qed.

Lemma same_structure_inv c1 c2 :
  same_structure c1 c2 → cache_inv c1 → cache_inv c2.
Proof.
  intros (Hc & Hu & Hm & _) [Hcap Hsz Hl].
  constructor.
  - by rewrite <- Hc.
  - by rewrite <- Hc, <- (untimed_length _ _ Hu).
  - rewrite <- Hm. by eapply untimed_linked.
Qed.

(** ** The order of the keys *)

Lemma filter_ne_notin (k : Key) (ks : list Key) :
  k ∉ ks → filter (fun k' => k' ≠ k) ks = ks.
Proof.
  induction ks as [|k' ks IH]; [done|].
  intros [Hne Hn]%not_elem_of_cons.
  rewrite filter_cons_True by done. by rewrite IH.
Qed.

Lemma filter_ne_middle (k : Key) (ks1 ks2 : list Key) :
  k ∉ ks1 → k ∉ ks2 →
  filter (fun k' => k' ≠ k) (ks1 ++ k :: ks2) = ks1 ++ ks2.
Proof.
  intros H1 H2. rewrite filter_app, filter_cons_False by (intros Hn; by apply Hn).
  by rewrite !filter_ne_notin.
Qed.

Lemma keys_of_middle (l1 l2 : EntryList) it e :
  keys_of (l1 ++ (it, e) :: l2) = keys_of l1 ++ key e :: keys_of l2.
Proof. unfold keys_of. by rewrite fmap_app. Qed.

(** The keys of the list follow the recency order of the specification. *)
Lemma call_keys c n op r w' :
  cache_inv c →
  call op (world c n) = Some (r, w') →
  keys (self w') = lru_order_after (capacity_ c) op (keys c).
Proof.
  intros Hinv Hc. pose proof Hinv as [Hcap Hsz Hl].
  destruct op as [k|k v|k|k| | | | | |]; unfold call in Hc; simpl;
    try (by injection Hc as _ <-).
  - destruct (index_ c !! k) as [it|] eqn:Hm.
    + destruct (linked_lookup _ _ _ _ Hl Hm)
        as (e & l1 & l2 & Hl12 & Hk & H1 & H2 & Hk1 & Hk2).
      rewrite (bind_Some _ _ _ _ _ (get_hit c n k it l1 l2 e Hm Hl12 H1 H2)) in Hc.
      injection Hc as _ <-. unfold keys, lru_touch. simpl.
      rewrite Hl12, keys_of_middle, Hk.
      rewrite decide_True by (apply elem_of_app; right; left).
      rewrite filter_ne_middle by done. unfold keys_of. by rewrite fmap_app.
    + rewrite (bind_Some _ _ _ _ _ (get_miss c n k Hm)) in Hc.
      injection Hc as _ <-. simpl.
      by rewrite decide_False by (by apply (linked_lookup_None _ _ k Hl)).
  - destruct (index_ c !! k) as [it|] eqn:Hm.
    + destruct (linked_lookup _ _ _ _ Hl Hm)
        as (e & l1 & l2 & Hl12 & Hk & H1 & H2 & Hk1 & Hk2).
      rewrite (bind_Some _ _ _ _ _ (put_present c n k v it l1 l2 e Hm Hl12 H1 H2)) in Hc.
      injection Hc as _ <-. unfold keys, lru_touch. simpl.
      rewrite Hl12, keys_of_middle, Hk.
      rewrite decide_True by (apply elem_of_app; right; left).
      rewrite filter_ne_middle by done. unfold keys_of. by rewrite fmap_app.
    + rewrite decide_False by (by apply (linked_lookup_None _ _ k Hl)).
      unfold keys, keys_of. rewrite length_fmap.
      destruct (N.of_nat (length (lru_list_ c)) <? capacity_ c)%N eqn:Hlt.
      * apply N.ltb_lt in Hlt.
        rewrite (bind_Some _ _ _ _ _ (put_absent_room c n k v Hm Hlt)) in Hc.
        by injection Hc as _ <-.
      * apply N.ltb_ge in Hlt.
        assert (∃ l0 it e, lru_list_ c = l0 ++ [(it, e)]) as (l0 & it & e & Hl0).
        { destruct (lru_list_ c) as [|[it e] l0 _] using rev_ind.
          - simpl in Hlt. lia.
          - by exists l0, it, e. }
        assert (N.of_nat (length (lru_list_ c)) = capacity_ c) as Hfull by lia.
        rewrite (bind_Some _ _ _ _ _
                   (put_absent_full c n k v l0 it e Hinv Hm Hfull Hl0)) in Hc.
        injection Hc as _ <-. simpl. rewrite Hl0, fmap_app. simpl.
        by rewrite removelast_last.
  - destruct (index_ c !! k) as [it|] eqn:Hm.
    + destruct (linked_lookup _ _ _ _ Hl Hm)
        as (e & l1 & l2 & Hl12 & Hk & H1 & H2 & Hk1 & Hk2).
      rewrite (bind_Some _ _ _ _ _ (remove_present c n k it l1 l2 e Hm Hl12 H1 H2)) in Hc.
      injection Hc as _ <-. unfold keys. simpl.
      rewrite Hl12, keys_of_middle, Hk.
      rewrite filter_ne_middle by done. unfold keys_of. by rewrite fmap_app.
    + rewrite (bind_Some _ _ _ _ _ (remove_absent c n k Hm)) in Hc.
      injection Hc as _ <-. simpl.
      by rewrite filter_ne_notin by (by apply (linked_lookup_None _ _ k Hl)).
Qed.

Lemma run_keys c n ops rs w :
  cache_inv c →
  run ops (world c n) = Some (rs, w) →
  keys (self w)
  = fold_left (fun ks op => lru_order_after (capacity_ c) op ks) ops (keys c).
Proof.
  revert c n rs. induction ops as [|op ops IH]; intros c n rs Hinv; simpl.
  - by intros [= <- <-].
  - destruct (call_inv c n op Hinv) as (r & c1 & n1 & Hc & Hinv1 & Hcap1 & _).
    rewrite (bind_Some _ _ _ _ _ Hc).
    destruct (run ops (world c1 n1)) as [[rs1 w1]|] eqn:Hr;
      [|by unfold bind; rewrite Hr].
    rewrite (bind_Some _ _ _ _ _ Hr). intros [= <- <-].
    pose proof (call_keys c n op r (world c1 n1) Hinv Hc) as Hk. simpl in Hk.
    by rewrite (IH c1 n1 rs1 Hinv1 Hr), Hcap1, Hk.
Qed.

(** A cache that holds one entry satisfies the invariant. *)
Lemma cache_inv_one_entry cap it e h m t :
  (0 < cap)%N →
  cache_inv {| capacity_ := cap; lru_list_ := [(it, e)];
               index_ := <[key e := it]> ∅;
               hit_count_ := h; miss_count_ := m;
               total_access_time_ns_ := t |}.
Proof.
  intros Hcap. constructor; simpl; [done|lia|].
  apply linked_cons; [apply linked_nil|apply not_elem_of_nil|apply lookup_empty].
Qed.

(** * The properties of the cache *)

(** C1. For every capacity [C > 0] and every sequence of calls on a cache
    constructed with capacity [C], construction succeeds, every call
    returns, and after each call (after every prefix [take i ops] of the
    sequence) [size()] and [capacity()] return values with
    [0 <= size() <= capacity()], [capacity()] being [C]. *)
Theorem C1_size_within_capacity (C : N) (ops : list Op) (n i : nat) :
  (0 < C)%N →
  ∃ (c0 : ThreadSafeLRUCache) rs w sz cap,
    construct C = inr c0 ∧
    run (take i ops) (world c0 n) = Some (rs, w) ∧
    size w = Some (sz, w) ∧
    capacity w = Some (cap, w) ∧
    cap = C ∧ (0 <= sz)%N ∧ (sz <= cap)%N.
Proof.
  intros HC. unfold construct.
  destruct (C =? 0)%N eqn:HC0; [apply N.eqb_eq in HC0; lia|].
  eexists. pose proof (construct_inv C) as Hinv.
  unfold construct in Hinv. rewrite HC0 in Hinv. specialize (Hinv _ eq_refl).
  destruct (run_inv _ n (take i ops) Hinv)
    as (rs & c' & n' & Hr & [Hcap Hsz _] & HcapC).
  exists rs, (world c' n'), (N.of_nat (length (lru_list_ c'))), (capacity_ c').
  simpl in *. split_and!; try done; lia.
Qed.

(** C3. The structural invariant (same keys in index and sequence, no
    duplicate key, every locator designating the node of its key) holds for
    a constructed cache, is kept by every call and by eviction whenever
    they return, and so holds after every sequence of calls on a
    constructed cache, all of which return. *)
Theorem C3_index_matches_sequence :
  (∀ C (c : ThreadSafeLRUCache), construct C = inr c → structure_inv c) ∧
  (∀ (c : ThreadSafeLRUCache) n op r w',
     structure_inv c → call op (world c n) = Some (r, w') →
     structure_inv (self w')) ∧
  (∀ (c : ThreadSafeLRUCache) n w',
     structure_inv c → evict_if_needed_unsafe (world c n) = Some (tt, w') →
     structure_inv (self w')) ∧
  (∀ C (c : ThreadSafeLRUCache) ops n,
     construct C = inr c →
     ∃ rs w, run ops (world c n) = Some (rs, w) ∧ structure_inv (self w)).
Proof.
  split_and!.
  - intros C c Hc. apply linked_structure_inv.
    by destruct (construct_inv _ _ Hc).
  - intros c n op r w' Hs Hc. apply linked_structure_inv.
    apply linked_structure_inv in Hs.
    by destruct (call_linked _ _ _ _ _ Hs Hc) as [? _].
  - intros c n w' Hs Hev. apply linked_structure_inv.
    apply linked_structure_inv in Hs.
    by destruct (evict_linked _ _ _ Hs Hev) as [? _].
  - intros C c ops n Hc. apply construct_inv in Hc.
    destruct (run_inv c n ops Hc) as (rs & c' & n' & Hr & [_ _ Hl] & _).
    exists rs, (world c' n'). split; [done|]. by apply linked_structure_inv.
Qed.

(** C4. On a constructed cache every sequence of calls returns and the
    snapshot then has [hits + misses] equal to the number of [get] calls
    issued since the last [reset_metrics] (or since construction), exactly
    so as long as that number fits the 64-bit counters and modulo [2^64] in
    any case; each [get] bumps exactly one of the two counters by
    [fetch_add 1] (which adds one when the counter is not at its maximum);
    [put], [remove], [contains] and [clear] leave both counters as they
    are. *)
Theorem C4_hits_plus_misses :
  (∀ C (c0 : ThreadSafeLRUCache) ops n,
     construct C = inr c0 →
     ∃ rs w m,
       run ops (world c0 n) = Some (rs, w) ∧
       get_metrics w = Some (m, w) ∧
       ((CacheMetrics.hits m + CacheMetrics.misses m) mod 2 ^ 64
        = N.of_nat (gets_since_reset ops) mod 2 ^ 64)%N ∧
       ((N.of_nat (gets_since_reset ops) < 2 ^ 64)%N →
        (CacheMetrics.hits m + CacheMetrics.misses m)%N
        = N.of_nat (gets_since_reset ops))) ∧
  (∀ (c : ThreadSafeLRUCache) k n,
     cache_inv c →
     ∃ o w', get k (world c n) = Some (o, w') ∧
       (hit_count_ (self w') = fetch_add (hit_count_ c) 1 ∧
        miss_count_ (self w') = miss_count_ c
        ∨ hit_count_ (self w') = hit_count_ c ∧
          miss_count_ (self w') = fetch_add (miss_count_ c) 1)) ∧
  (∀ x : N, (x + 1 < 2 ^ 64)%N → fetch_add x 1 = (x + 1)%N) ∧
  (∀ (c : ThreadSafeLRUCache) op n,
     cache_inv c →
     (∃ k v, op = OpPut k v) ∨ (∃ k, op = OpRemove k) ∨
     (∃ k, op = OpContains k) ∨ op = OpClear →
     ∃ r w', call op (world c n) = Some (r, w') ∧
       hit_count_ (self w') = hit_count_ c ∧
       miss_count_ (self w') = miss_count_ c).
Proof.
  split_and!.
  - intros C c0 ops n Hc. pose proof (construct_inv _ _ Hc) as Hinv.
    apply construct_inr in Hc as [-> _].
    destruct (run_inv _ n ops Hinv) as (rs & c' & n' & Hr & _).
    eexists rs, (world c' n'), _. split; [done|]. split; [done|]. simpl. split.
    + by apply (run_counters_mod ops _ n 0 rs (world c' n') Hinv).
    + by apply (run_counters ops _ n 0 rs (world c' n') Hinv).
  - intros c k n Hinv.
    destruct (call_inv c n (OpGet k) Hinv)
      as (r & c' & n' & Hc & _ & _ & Hcnt).
    unfold call in Hc.
    destruct (get k (world c n)) as [[o w']|] eqn:Hg; [|by unfold bind in Hc; rewrite Hg in Hc].
    rewrite (bind_Some _ _ _ _ _ Hg) in Hc. injection Hc as _ ->.
    by exists o, (world c' n').
  - apply fetch_add_1.
  - intros c op n Hinv Hop.
    destruct (call_inv c n op Hinv)
      as (r & c' & n' & Hc & _ & _ & Hcnt).
    exists r, (world c' n'). split; [done|]. simpl.
    destruct Hop as [(k & v & ->)|[(k & ->)|[(k & ->)| ->]]]; exact Hcnt.
Qed.

(** C5. Constructing with capacity [0] throws the one exception type of
    the header and gives no cache; constructing with a capacity [> 0] gives
    an empty cache of that capacity; on a constructed cache no call and no
    sequence of calls fails. *)
Theorem C5_only_construction_fails :
  construct 0
  = inl (CacheException_what "Cache capacity must be greater than 0") ∧
  (∀ c : ThreadSafeLRUCache, construct 0 ≠ inr c) ∧
  (∀ e : CacheException, ∃ what, e = CacheException_what what) ∧
  (∀ C, (0 < C)%N →
     ∃ c : ThreadSafeLRUCache, construct C = inr c ∧ capacity_ c = C ∧
                  lru_list_ c = [] ∧ index_ c = ∅) ∧
  (∀ C (c : ThreadSafeLRUCache) op n,
     construct C = inr c → ∃ r w', call op (world c n) = Some (r, w')) ∧
  (∀ C (c : ThreadSafeLRUCache) ops n,
     construct C = inr c → ∃ rs w', run ops (world c n) = Some (rs, w')).
Proof.
  split_and!.
  - done.
  - done.
  - intros [what]. by exists what.
  - intros C HC. unfold construct.
    destruct (C =? 0)%N eqn:HC0; [apply N.eqb_eq in HC0; lia|].
    by eexists.
  - intros C c op n Hc. apply construct_inv in Hc.
    destruct (call_total c n op Hc) as (r & c' & n' & Hcall).
    by eexists _, _.
  - intros C c ops n Hc. apply construct_inv in Hc.
    destruct (run_inv c n ops Hc) as (rs & c' & n' & Hr & _).
    by eexists _, _.
Qed.

(** C8. [clear()] returns in a world where [size()] is [0], [empty()] is
    true and [contains(k)] is false for every key [k]; the hit counter, the
    miss counter and the latency accumulator (and the capacity) are what
    they were. *)
Theorem C8_clear (c : ThreadSafeLRUCache) (n : nat) :
  ∃ c',
    clear (world c n) = Some (tt, world c' n) ∧
    size (world c' n) = Some (0%N, world c' n) ∧
    empty (world c' n) = Some (true, world c' n) ∧
    (∀ k, contains k (world c' n) = Some (false, world c' n)) ∧
    hit_count_ c' = hit_count_ c ∧
    miss_count_ c' = miss_count_ c ∧
    total_access_time_ns_ c' = total_access_time_ns_ c ∧
    capacity_ c' = capacity_ c.
Proof.
  eexists. split; [reflexivity|]. split_and!; try done.
Qed.

(** C6. For a key [k] that [contains] reports absent: [remove(k)] returns
    false in an unchanged world, and [get(k)] returns none, bumps the miss
    counter by [fetch_add 1] (one more, unless the counter is at its
    maximum), and leaves the hit counter, the list, the index and the
    capacity as they were.  For a key that [contains] reports present in a
    cache that satisfies the invariant: [remove(k)] returns true, unlinks
    exactly the node of [k] from the list and deletes [k] from the index,
    so that [k] is in neither and the size is one less. *)
Theorem C6_remove_and_get_of_absent_key (c : ThreadSafeLRUCache) (k : Key) (n : nat) :
  (contains k (world c n) = Some (false, world c n) →
   remove k (world c n) = Some (false, world c n) ∧
   ∃ c', get k (world c n) = Some (None, world c' (S (S n))) ∧
         miss_count_ c' = fetch_add (miss_count_ c) 1 ∧
         ((miss_count_ c + 1 < 2 ^ 64)%N →
          miss_count_ c' = (miss_count_ c + 1)%N) ∧
         hit_count_ c' = hit_count_ c ∧
         lru_list_ c' = lru_list_ c ∧
         index_ c' = index_ c ∧
         capacity_ c' = capacity_ c) ∧
  (cache_inv c →
   contains k (world c n) = Some (true, world c n) →
   ∃ c' l1 it e l2,
     remove k (world c n) = Some (true, world c' n) ∧
     lru_list_ c = l1 ++ (it, e) :: l2 ∧ key e = k ∧
     lru_list_ c' = l1 ++ l2 ∧
     index_ c' = delete k (index_ c) ∧
     (k ∉ keys c') ∧
     contains k (world c' n) = Some (false, world c' n) ∧
     (N.of_nat (length (lru_list_ c')) + 1)%N = N.of_nat (length (lru_list_ c)) ∧
     hit_count_ c' = hit_count_ c ∧ miss_count_ c' = miss_count_ c).
Proof.
  split.
  - intros Hm%contains_false. split; [by apply remove_absent|].
    eexists. split; [by apply get_miss|]. simpl. split_and!; try done.
    apply fetch_add_1.
  - intros [_ _ Hl] [it Hm]%contains_true.
    destruct (linked_lookup _ _ _ _ Hl Hm)
      as (e & l1 & l2 & Hl12 & Hk & H1 & H2 & Hk1 & Hk2).
    eexists _, l1, it, e, l2. split; [by eapply remove_present|]. simpl.
    split_and!; try done.
    + unfold keys, keys_of in *. simpl. rewrite fmap_app.
      intros [?|?]%elem_of_app; [by apply Hk1|by apply Hk2].
    + rewrite contains_spec. simpl. rewrite lookup_delete_eq. done.
    + rewrite Hl12, !length_app. simpl. lia.
Qed.

(** * Further properties: the cache as a finite map *)

Lemma entries_of_keys (l : EntryList) : (entries_of l).*1 = keys_of l.
Proof using Type*. unfold entries_of, keys_of. by rewrite <- list_fmap_compose. Qed.

Lemma contents_of_cons it e (l : EntryList) :
  contents_of ((it, e) :: l) = <[key e := value e]> (contents_of l).
Proof using Type*. done. Qed.

Lemma contents_of_perm (l l' : EntryList) :
  NoDup (keys_of l) → l ≡ₚ l' → contents_of l = contents_of l'.
Proof using Type*.
  intros Hnd Hp. unfold contents_of. apply list_to_map_proper.
  - by rewrite entries_of_keys.
  - unfold entries_of. by rewrite Hp.
Qed.

Lemma contents_of_None (l : EntryList) k :
  contents_of l !! k = None ↔ k ∉ keys_of l.
Proof using Type*.
  unfold contents_of. by rewrite <- not_elem_of_list_to_map, entries_of_keys.
Qed.

Lemma contents_of_middle (l1 l2 : EntryList) it e :
  NoDup (keys_of (l1 ++ (it, e) :: l2)) →
  contents_of (l1 ++ (it, e) :: l2)
  = <[key e := value e]> (contents_of (l1 ++ l2)).
Proof using Type*.
  intros Hnd. rewrite <- (contents_of_cons it). apply contents_of_perm; [done|].
  by rewrite Permutation_middle.
Qed.

Lemma contents_of_middle_None (l1 l2 : EntryList) it e :
  NoDup (keys_of (l1 ++ (it, e) :: l2)) →
  contents_of (l1 ++ l2) !! key e = None.
Proof using Type*.
  intros Hnd. apply contents_of_None.
  destruct (NoDup_middle_notin (fun n : EntryIterator * CacheEntry => key n.2)
              _ _ _ Hnd) as [H1 H2].
  unfold keys_of. rewrite fmap_app.
  intros [?|?]%elem_of_app; [by apply H1|by apply H2].
Qed.

Lemma contents_of_remove (l1 l2 : EntryList) it e :
  NoDup (keys_of (l1 ++ (it, e) :: l2)) →
  contents_of (l1 ++ l2) = delete (key e) (contents_of (l1 ++ (it, e) :: l2)).
Proof using Type*.
  intros Hnd. rewrite (contents_of_middle l1 l2 it e) by done.
  rewrite delete_insert_id; [done|]. by apply (contents_of_middle_None l1 l2 it).
Qed.

Lemma contents_index c k :
  linked (lru_list_ c) (index_ c) →
  contents c !! k = None ↔ index_ c !! k = None.
Proof using Type*.
  intros Hl. unfold contents.
  by rewrite contents_of_None, (linked_lookup_None _ _ k Hl).
Qed.

Lemma contents_size c :
  linked (lru_list_ c) (index_ c) →
  base.size (contents c) = length (lru_list_ c).
Proof using Type*.
  intros (_ & Hnk & _). unfold contents, contents_of.
  rewrite map_size_list_to_map by (by rewrite entries_of_keys).
  unfold entries_of. by rewrite length_fmap.
Qed.

Lemma get_contents c n k :
  cache_inv c →
  ∃ c', get k (world c n) = Some (contents c !! k, world c' (S (S n))) ∧
        contents c' = contents c ∧
        index_ c' = index_ c ∧
        (is_Some (contents c !! k) →
         hit_count_ c' = fetch_add (hit_count_ c) 1 ∧
         miss_count_ c' = miss_count_ c) ∧
        (contents c !! k = None →
         hit_count_ c' = hit_count_ c ∧
         miss_count_ c' = fetch_add (miss_count_ c) 1 ∧
         lru_list_ c' = lru_list_ c).
Proof using Type*.
  intros [_ _ Hl]. destruct (index_ c !! k) as [it|] eqn:Hm.
  - destruct (linked_lookup _ _ _ _ Hl Hm)
      as (e & l1 & l2 & Hl12 & Hk & H1 & H2 & _).
    pose proof Hl as (_ & Hnk & _). rewrite Hl12 in Hnk.
    assert (contents c !! k = Some (value e)) as Hck.
    { unfold contents. rewrite Hl12, contents_of_middle, Hk by done.
      apply lookup_insert_eq. }
    eexists. rewrite Hck. split; [by eapply get_hit|]. simpl.
    split_and!; try done.
    unfold contents. simpl. rewrite Hl12.
    apply contents_of_perm; [|apply Permutation_middle].
    unfold keys_of in *. by rewrite Permutation_middle.
  - assert (contents c !! k = None) as Hck by (by apply contents_index).
    eexists. rewrite Hck. split; [by apply get_miss|]. simpl.
    split_and!; try done.
Qed.

Lemma put_contents c n k v :
  cache_inv c →
  ∃ c' n',
    put k v (world c n) = Some (true, world c' n') ∧
    cache_inv c' ∧
    (is_Some (contents c !! k)
     ∨ (N.of_nat (length (lru_list_ c)) < capacity_ c)%N →
     contents c' = <[k := v]> (contents c)) ∧
    (contents c !! k = None →
     N.of_nat (length (lru_list_ c)) = capacity_ c →
     ∃ kt, last (keys c) = Some kt ∧
           contents c' = <[k := v]> (delete kt (contents c))).
Proof using Type*.
  intros Hinv. pose proof Hinv as [Hcap Hsz Hl].
  destruct (call_inv c n (OpPut k v) Hinv) as (r & c' & n' & Hc & Hinv' & _).
  unfold call in Hc.
  destruct (index_ c !! k) as [it|] eqn:Hm.
  - destruct (linked_lookup _ _ _ _ Hl Hm)
      as (e & l1 & l2 & Hl12 & Hk & H1 & H2 & _).
    pose proof Hl as (_ & Hnk & _). rewrite Hl12 in Hnk.
    pose proof (put_present c n k v it l1 l2 e Hm Hl12 H1 H2) as Hp.
    rewrite (bind_Some _ _ _ _ _ Hp) in Hc. injection Hc as _ <- <-.
    eexists _, _. split; [exact Hp|]. split; [done|]. split.
    + intros _. unfold contents. simpl.
      rewrite contents_of_cons. simpl.
      rewrite (contents_of_remove l1 l2 it e Hnk), Hk, insert_delete_eq.
      by rewrite Hl12.
    + intros Hnone. apply contents_index in Hnone; [congruence|done].
  - assert (contents c !! k = None) as Hck by (by apply contents_index).
    destruct (decide (N.of_nat (length (lru_list_ c)) < capacity_ c)%N)
      as [Hlt|Hge].
    + pose proof (put_absent_room c n k v Hm Hlt) as Hp.
      rewrite (bind_Some _ _ _ _ _ Hp) in Hc. injection Hc as _ <- <-.
      eexists _, _. split; [exact Hp|]. split; [done|]. split; [done|].
      intros _ Hfull. lia.
    + assert (N.of_nat (length (lru_list_ c)) = capacity_ c) as Hfull by lia.
      assert (∃ l0 it e, lru_list_ c = l0 ++ [(it, e)]) as (l0 & it & e & Hl0).
      { destruct (lru_list_ c) as [|[it e] l0 _] using rev_ind.
        - simpl in Hfull. lia.
        - by exists l0, it, e. }
      pose proof Hl as (_ & Hnk & _). rewrite Hl0 in Hnk.
      pose proof (put_absent_full c n k v l0 it e Hinv Hm Hfull Hl0) as Hp.
      rewrite (bind_Some _ _ _ _ _ Hp) in Hc. injection Hc as _ <- <-.
      eexists _, _. split; [exact Hp|]. split; [done|]. split.
      * intros [Hs|Hlt]; [|lia]. rewrite Hck in Hs. by destruct Hs.
      * intros _ _. exists (key e). split.
        -- unfold keys, keys_of. rewrite Hl0, fmap_app. apply last_snoc.
        -- unfold contents. simpl. unfold list_emplace_front.
           rewrite contents_of_cons. simpl.
           pose proof (contents_of_remove l0 [] it e Hnk) as Hr.
           rewrite app_nil_r in Hr. by rewrite Hr, Hl0.
Qed.

Lemma remove_contents c n k :
  cache_inv c →
  ∃ c', remove k (world c n)
        = Some (bool_decide (is_Some (contents c !! k)), world c' n) ∧
        cache_inv c' ∧
        contents c' = delete k (contents c) ∧
        (contents c !! k = None → c' = c).
Proof using Type*.
  intros Hinv. pose proof Hinv as [Hcap Hsz Hl].
  destruct (remove_linked c n k Hl) as (b & c' & Hc & Hl' & Hlen & Hcap' & _).
  assert (cache_inv c') as Hinv' by (constructor; [lia|lia|done]).
  destruct (index_ c !! k) as [it|] eqn:Hm.
  - destruct (linked_lookup _ _ _ _ Hl Hm)
      as (e & l1 & l2 & Hl12 & Hk & H1 & H2 & _).
    pose proof Hl as (_ & Hnk & _). rewrite Hl12 in Hnk.
    pose proof (remove_present c n k it l1 l2 e Hm Hl12 H1 H2) as Hp.
    rewrite Hp in Hc. injection Hc as <- <-.
    assert (is_Some (contents c !! k)) as Hs.
    { apply not_eq_None_Some. rewrite contents_index by done. congruence. }
    eexists. rewrite bool_decide_true by done.
    split; [exact Hp|]. split; [done|]. split.
    + unfold contents. simpl.
      by rewrite (contents_of_remove l1 l2 it e Hnk), Hk, Hl12.
    + intros Hnone. rewrite Hnone in Hs. by destruct Hs.
  - assert (contents c !! k = None) as Hck by (by apply contents_index).
    pose proof (remove_absent c n k Hm) as Hp.
    exists c. rewrite Hck. split; [exact Hp|]. split; [done|].
    split; [|done]. symmetry. by apply delete_id.
Qed.

Lemma run_cons op ops w r w1 rs w2 :
  call op w = Some (r, w1) → run ops w1 = Some (rs, w2) →
  run (op :: ops) w = Some (r :: rs, w2).
Proof using Type*.
  intros Hc Hr. simpl.
  by rewrite (bind_Some _ _ _ _ _ Hc), (bind_Some _ _ _ _ _ Hr).
Qed.

Lemma call_put w k v b w' :
  put k v w = Some (b, w') → call (OpPut k v) w = Some (RBool b, w').
Proof using Type*. intros Hp. unfold call. by rewrite (bind_Some _ _ _ _ _ Hp). Qed.

Lemma call_get w k o w' :
  get k w = Some (o, w') → call (OpGet k) w = Some (RValue o, w').
Proof using Type*. intros Hp. unfold call. by rewrite (bind_Some _ _ _ _ _ Hp). Qed.

Lemma call_remove w k b w' :
  remove k w = Some (b, w') → call (OpRemove k) w = Some (RBool b, w').
Proof using Type*. intros Hp. unfold call. by rewrite (bind_Some _ _ _ _ _ Hp). Qed.

(** X1. [get(k)] returns what the cache holds for [k] -- the value of the
    entry whose key is [k], or none -- and leaves what the cache holds as it
    was; when it returns a value it bumps the hit counter and leaves the
    miss counter, and the other way round when it returns none. *)
Theorem X1_get_returns_the_stored_value (c : ThreadSafeLRUCache) (k : Key) (n : nat) :
  cache_inv c →
  ∃ c', get k (world c n) = Some (contents c !! k, world c' (S (S n))) ∧
        contents c' = contents c ∧
        (is_Some (contents c !! k) →
         hit_count_ c' = fetch_add (hit_count_ c) 1 ∧
         miss_count_ c' = miss_count_ c) ∧
        (contents c !! k = None →
         hit_count_ c' = hit_count_ c ∧
         miss_count_ c' = fetch_add (miss_count_ c) 1).
Proof using Type*.
  intros Hinv.
  destruct (get_contents c n k Hinv) as (c' & Hg & Hc & _ & Hhit & Hmiss).
  exists c'. split_and!; [done|done|done|].
  intros Hn. by destruct (Hmiss Hn) as (? & ? & _).
Qed.

(** X2. The observers agree with what the cache holds: [contains(k)] tells
    whether [k] has an entry, [size()] is the number of keys that have one,
    [empty()] tells whether there is none, and the snapshot of
    [get_metrics()] carries that size, the capacity and the two counters,
    with [current_size <= capacity]; none of them changes the cache. *)
Theorem X2_observers_agree_with_contents (c : ThreadSafeLRUCache) (k : Key) (n : nat) :
  cache_inv c →
  contains k (world c n)
  = Some (bool_decide (is_Some (contents c !! k)), world c n) ∧
  size (world c n) = Some (N.of_nat (base.size (contents c)), world c n) ∧
  empty (world c n) = Some (bool_decide (contents c = ∅), world c n) ∧
  ∃ m, get_metrics (world c n) = Some (m, world c n) ∧
       CacheMetrics.current_size m = N.of_nat (base.size (contents c)) ∧
       CacheMetrics.capacity m = capacity_ c ∧
       (CacheMetrics.current_size m <= CacheMetrics.capacity m)%N ∧
       CacheMetrics.hits m = hit_count_ c ∧
       CacheMetrics.misses m = miss_count_ c.
Proof using Type*.
  intros [Hcap Hsz Hl]. pose proof (contents_size c Hl) as Hcs.
  split_and!.
  - rewrite contains_spec. do 2 f_equal. apply bool_decide_ext.
    rewrite <- !not_eq_None_Some. by rewrite (contents_index c k Hl).
  - unfold size. cbv [bind read ret world self]. by rewrite Hcs.
  - unfold empty. cbv [bind read ret world self]. do 2 f_equal.
    apply bool_decide_ext. rewrite <- (map_size_empty_iff (contents c)), Hcs.
    by destruct (lru_list_ c).
  - eexists. split; [reflexivity|]. simpl. rewrite Hcs.
    split_and!; try done.
Qed.

(** X3. [put(k, v)] returns true and makes the cache hold [v] for [k].
    When [k] was present or the cache had room, nothing else changes in
    what the cache holds; when [k] was absent and the cache was full, the
    key at the tail of the list, and only that one, is dropped. *)
Theorem X3_put_stores_the_value (c : ThreadSafeLRUCache) (k : Key) (v : Value) (n : nat) :
  cache_inv c →
  ∃ c' n',
    put k v (world c n) = Some (true, world c' n') ∧
    contents c' !! k = Some v ∧
    (is_Some (contents c !! k)
     ∨ (N.of_nat (length (lru_list_ c)) < capacity_ c)%N →
     contents c' = <[k := v]> (contents c)) ∧
    (contents c !! k = None →
     N.of_nat (length (lru_list_ c)) = capacity_ c →
     ∃ kt, last (keys c) = Some kt ∧ kt ≠ k ∧
           contents c' = <[k := v]> (delete kt (contents c)) ∧
           contents c' !! kt = None).
Proof using Type*.
  intros Hinv. pose proof Hinv as [Hcap Hsz Hl].
  destruct (put_contents c n k v Hinv) as (c' & n' & Hp & _ & Hkeep & Hdrop).
  exists c', n'. split; [done|].
  assert (∀ kt, last (keys c) = Some kt → contents c !! k = None → kt ≠ k)
    as Hne.
  { intros kt Hlast Hnone ->. apply contents_of_None in Hnone.
    apply Hnone. apply last_Some_elem_of in Hlast. exact Hlast. }
  split_and!.
  - destruct (contents c !! k) as [v0|] eqn:Hck.
    + rewrite Hkeep by (left; done). apply lookup_insert_eq.
    + destruct (decide (N.of_nat (length (lru_list_ c)) < capacity_ c)%N)
        as [Hlt|Hge].
      * rewrite Hkeep by (by right). apply lookup_insert_eq.
      * destruct (Hdrop eq_refl ltac:(lia)) as (kt & _ & ->).
        apply lookup_insert_eq.
  - done.
  - intros Hnone Hfull. destruct (Hdrop Hnone Hfull) as (kt & Hlast & Hc').
    exists kt. pose proof (Hne kt Hlast Hnone) as Hkt.
    split_and!; try done.
    rewrite Hc', lookup_insert_ne by done. apply lookup_delete_eq.
Qed.

(** X4. [remove(k)] returns whether the cache held an entry for [k] and
    leaves the cache holding everything it held except [k]; when [k] had
    no entry the cache is exactly what it was. *)
Theorem X4_remove_deletes_the_key (c : ThreadSafeLRUCache) (k : Key) (n : nat) :
  cache_inv c →
  ∃ c', remove k (world c n)
        = Some (bool_decide (is_Some (contents c !! k)), world c' n) ∧
        contents c' = delete k (contents c) ∧
        contents c' !! k = None ∧
        (contents c !! k = None → c' = c).
Proof using Type*.
  intros Hinv.
  destruct (remove_contents c n k Hinv) as (c' & Hr & _ & Hc' & Hsame).
  exists c'. split_and!; try done. rewrite Hc'. apply lookup_delete_eq.
Qed.

(** X5. What [put] wrote is what [get] reads: after [put(k, v)], [get(k)]
    returns [v] and [contains(k)] is true, whatever the cache held. *)
Theorem X5_get_after_put (c : ThreadSafeLRUCache) (k : Key) (v : Value) (n : nat) :
  cache_inv c →
  ∃ w', run [OpPut k v; OpGet k; OpContains k] (world c n)
        = Some ([RBool true; RValue (Some v); RBool true], w').
Proof using Type*.
  intros Hinv. pose proof Hinv as [_ _ Hl].
  destruct (put_contents c n k v Hinv) as (c1 & n1 & Hp & Hinv1 & Hkeep & Hdrop).
  assert (contents c1 !! k = Some v) as Hk1.
  { destruct (contents c !! k) as [v0|] eqn:Hck.
    - rewrite Hkeep by (left; done). apply lookup_insert_eq.
    - destruct Hinv as [Hcap Hsz _].
      destruct (decide (N.of_nat (length (lru_list_ c)) < capacity_ c)%N)
        as [Hlt|Hge].
      + rewrite Hkeep by (by right). apply lookup_insert_eq.
      + destruct (Hdrop eq_refl ltac:(lia)) as (kt & _ & ->).
        apply lookup_insert_eq. }
  destruct (get_contents c1 n1 k Hinv1) as (c2 & Hg & Hc2 & Hi2 & _).
  rewrite Hk1 in Hg.
  assert (is_Some (index_ c2 !! k)) as Hs.
  { rewrite Hi2. apply not_eq_None_Some.
    destruct Hinv1 as [_ _ Hl1]. rewrite <- (contents_index c1 k Hl1).
    congruence. }
  exists (world c2 (S (S n1))).
  eapply run_cons; [by apply call_put|].
  eapply run_cons; [by apply call_get|].
  eapply run_cons; [|reflexivity].
  cbv [call contains bind read ret world self]. by rewrite bool_decide_true.
Qed.

(** X6. [put] of an absent key followed by [remove] of that key: in a cache
    with room the list and the index are afterwards exactly what they were;
    in a full cache the node that was at the tail is gone and the others
    are as they were.  The two counters are untouched either way. *)
Theorem X6_put_then_remove (c : ThreadSafeLRUCache) (k : Key) (v : Value) (n : nat) :
  cache_inv c →
  contains k (world c n) = Some (false, world c n) →
  ∃ c',
    run [OpPut k v; OpRemove k] (world c n)
    = Some ([RBool true; RBool true], world c' (S (S (S n)))) ∧
    hit_count_ c' = hit_count_ c ∧ miss_count_ c' = miss_count_ c ∧
    capacity_ c' = capacity_ c ∧
    ((N.of_nat (length (lru_list_ c)) < capacity_ c)%N →
     lru_list_ c' = lru_list_ c ∧ index_ c' = index_ c) ∧
    (N.of_nat (length (lru_list_ c)) = capacity_ c →
     lru_list_ c' = removelast (lru_list_ c) ∧
     ∃ kt, last (keys c) = Some kt ∧ index_ c' = delete kt (index_ c)).
Proof using Type*.
  intros Hinv Hm%contains_false. pose proof Hinv as [Hcap Hsz Hl].
  destruct (decide (N.of_nat (length (lru_list_ c)) < capacity_ c)%N)
    as [Hlt|Hge].
  - pose proof (put_absent_room c n k v Hm Hlt) as Hp.
    eexists. split.
    { eapply run_cons; [by apply call_put|].
      eapply run_cons; [|reflexivity]. apply call_remove.
      eapply (remove_present _ _ k (new_node (lru_list_ c)) [] (lru_list_ c));
        [simpl; apply lookup_insert_eq|reflexivity|apply not_elem_of_nil
        |apply new_node_fresh]. }
    simpl. split_and!; try done; [|lia].
    intros _. split; [done|]. by apply delete_insert_id.
  - assert (N.of_nat (length (lru_list_ c)) = capacity_ c) as Hfull by lia.
    assert (∃ l0 it e, lru_list_ c = l0 ++ [(it, e)]) as (l0 & it & e & Hl0).
    { destruct (lru_list_ c) as [|[it e] l0 _] using rev_ind.
      - simpl in Hfull. lia.
      - by exists l0, it, e. }
    pose proof (put_absent_full c n k v l0 it e Hinv Hm Hfull Hl0) as Hp.
    eexists. split.
    { eapply run_cons; [by apply call_put|].
      eapply run_cons; [|reflexivity]. apply call_remove.
      eapply (remove_present _ _ k (new_node l0) [] l0);
        [simpl; apply lookup_insert_eq|reflexivity|apply not_elem_of_nil
        |apply new_node_fresh]. }
    simpl. split_and!; try done.
    intros _. rewrite Hl0, removelast_last. split; [done|].
    exists (key e). split.
    + unfold keys, keys_of. rewrite Hl0, fmap_app. apply last_snoc.
    + apply delete_insert_id. rewrite lookup_delete_ne; [done|].
      intros Heq. destruct Hl as (_ & _ & Hi).
      assert (index_ c !! key e = Some it) as Hs; [|congruence].
      apply Hi. exists e. split; [|done]. rewrite Hl0.
      apply elem_of_app. right. left.
Qed.

(** * Further properties: the eviction loop *)





(** * Further properties: the clock and the latency accumulator *)

(** X9. Only [get] and [put] read the clock and only they add to the
    latency accumulator: [get], and [put] of a present key, make two
    readings and add the time between them; [put] of an absent key makes
    three (the second while constructing the entry) and adds the time
    between the first and the third; [reset_metrics] zeroes the
    accumulator; every other member function leaves clock and accumulator
    alone.  The sum wraps at [2^64]. *)
Theorem X9_latency_accounting
    (c : ThreadSafeLRUCache) (op : Op) (n : nat) (r : Result) (w' : World) :
  cache_inv c →
  call op (world c n) = Some (r, w') →
  match op with
  | OpGet _ =>
      clock_reads w' = S (S n) ∧
      total_access_time_ns_ (self w')
      = fetch_add (total_access_time_ns_ c)
          (to_uint64 (steady_clock_now (S n) - steady_clock_now n))
  | OpPut k _ =>
      if decide (is_Some (contents c !! k)) then
        clock_reads w' = S (S n) ∧
        total_access_time_ns_ (self w')
        = fetch_add (total_access_time_ns_ c)
            (to_uint64 (steady_clock_now (S n) - steady_clock_now n))
      else
        clock_reads w' = S (S (S n)) ∧
        total_access_time_ns_ (self w')
        = fetch_add (total_access_time_ns_ c)
            (to_uint64 (steady_clock_now (S (S n)) - steady_clock_now n))
  | OpResetMetrics =>
      clock_reads w' = n ∧ total_access_time_ns_ (self w') = 0%N
  | _ =>
      clock_reads w' = n ∧
      total_access_time_ns_ (self w') = total_access_time_ns_ c
  end.
Proof using Type*.
  intros Hinv Hc. pose proof Hinv as [Hcap Hsz Hl].
  destruct op as [k|k v|k|k| | | | | |]; unfold call in Hc;
    try (by injection Hc as _ <-).
  - destruct (index_ c !! k) as [it|] eqn:Hm.
    + destruct (linked_lookup _ _ _ _ Hl Hm)
        as (e & l1 & l2 & Hl12 & Hk & H1 & H2 & _).
      rewrite (bind_Some _ _ _ _ _ (get_hit c n k it l1 l2 e Hm Hl12 H1 H2)) in Hc.
      by injection Hc as _ <-.
    + rewrite (bind_Some _ _ _ _ _ (get_miss c n k Hm)) in Hc.
      by injection Hc as _ <-.
  - destruct (index_ c !! k) as [it|] eqn:Hm.
    + rewrite decide_True
        by (apply not_eq_None_Some; rewrite contents_index by done; congruence).
      destruct (linked_lookup _ _ _ _ Hl Hm)
        as (e & l1 & l2 & Hl12 & Hk & H1 & H2 & _).
      rewrite (bind_Some _ _ _ _ _ (put_present c n k v it l1 l2 e Hm Hl12 H1 H2)) in Hc.
      by injection Hc as _ <-.
    + rewrite decide_False
        by (rewrite <- not_eq_None_Some; intros Hn; apply Hn;
            by apply contents_index).
      destruct (evict_total c (S n) Hinv) as [c1 Hev].
      destruct (evict_linked c (S n) _ Hl Hev)
        as (_ & _ & _ & _ & _ & Ht & _).
      rewrite (bind_Some _ _ _ _ _ (put_absent c n k v c1 Hm Hev)) in Hc.
      injection Hc as _ <-. simpl in *. by rewrite Ht.
  - destruct (remove_linked c n k Hl) as (b & c' & Hr & _).
    rewrite (bind_Some _ _ _ _ _ Hr) in Hc. injection Hc as _ <-.
    simpl. split; [done|].
    destruct (index_ c !! k) as [it|] eqn:Hm.
    + destruct (linked_lookup _ _ _ _ Hl Hm)
        as (e & l1 & l2 & Hl12 & Hk & H1 & H2 & _).
      rewrite (remove_present c n k it l1 l2 e Hm Hl12 H1 H2) in Hr.
      by injection Hr as _ <-.
    + rewrite (remove_absent c n k Hm) in Hr. by injection Hr as _ <-.
Qed.

(** * Further properties: filling the cache *)

Lemma take_app_take {A} (n : nat) (a b : list A) :
  take n (a ++ take n b) = take n (a ++ b).
Proof using Type*.
  rewrite !take_app, take_take. do 2 f_equal. lia.
Qed.

Lemma put_entries_absent c n k v :
  cache_inv c → index_ c !! k = None →
  ∃ c' n',
    put k v (world c n) = Some (true, world c' n') ∧
    cache_inv c' ∧ capacity_ c' = capacity_ c ∧
    entries c' = take (N.to_nat (capacity_ c)) ((k, v) :: entries c).
Proof using Type*.
  intros Hinv Hm. pose proof Hinv as [Hcap Hsz Hl].
  destruct (call_inv c n (OpPut k v) Hinv)
    as (r & c' & n' & Hc & Hinv' & Hcap' & _).
  unfold call in Hc.
  destruct (decide (N.of_nat (length (lru_list_ c)) < capacity_ c)%N)
    as [Hlt|Hge].
  - pose proof (put_absent_room c n k v Hm Hlt) as Hp.
    rewrite (bind_Some _ _ _ _ _ Hp) in Hc. injection Hc as _ <- <-.
    eexists _, _. split; [exact Hp|]. split; [done|]. split; [done|].
    unfold entries, entries_of. simpl. rewrite take_ge; [done|].
    simpl. rewrite length_fmap. lia.
  - assert (N.of_nat (length (lru_list_ c)) = capacity_ c) as Hfull by lia.
    assert (∃ l0 it e, lru_list_ c = l0 ++ [(it, e)]) as (l0 & it & e & Hl0).
    { destruct (lru_list_ c) as [|[it e] l0 _] using rev_ind.
      - simpl in Hfull. lia.
      - by exists l0, it, e. }
    pose proof (put_absent_full c n k v l0 it e Hinv Hm Hfull Hl0) as Hp.
    rewrite (bind_Some _ _ _ _ _ Hp) in Hc. injection Hc as _ <- <-.
    eexists _, _. split; [exact Hp|]. split; [done|]. split; [done|].
    unfold entries, entries_of. simpl. rewrite Hl0, fmap_app.
    assert (N.to_nat (capacity_ c) = S (length l0)) as ->.
    { rewrite <- Hfull, Hl0, length_app. simpl. lia. }
    simpl. f_equal. by rewrite take_app_length' by (by rewrite length_fmap).
Qed.

Lemma run_puts_entries (kvs : list (Key * Value)) c n :
  cache_inv c → NoDup kvs.*1 → (∀ k, k ∈ kvs.*1 → k ∉ keys c) →
  ∃ c' n',
    run ((fun kv => OpPut kv.1 kv.2) <$> kvs) (world c n)
    = Some (replicate (length kvs) (RBool true), world c' n') ∧
    cache_inv c' ∧ capacity_ c' = capacity_ c ∧
    entries c' = take (N.to_nat (capacity_ c)) (reverse kvs ++ entries c).
Proof using Type*.
  revert c n. induction kvs as [|[k v] kvs IH]; intros c n Hinv Hnd Hfresh.
  - exists c, n. split; [done|]. split; [done|]. split; [done|].
    simpl. rewrite take_ge; [done|]. destruct Hinv as [_ Hsz _].
    unfold entries, entries_of. rewrite length_fmap. lia.
  - simpl in Hnd. apply NoDup_cons in Hnd as [Hk Hnd].
    assert (index_ c !! k = None) as Hm.
    { destruct Hinv as [_ _ Hl]. apply (linked_lookup_None _ _ k Hl).
      apply Hfresh. left. }
    destruct (put_entries_absent c n k v Hinv Hm)
      as (c1 & n1 & Hp & Hinv1 & Hcap1 & He1).
    destruct (IH c1 n1 Hinv1 Hnd) as (c' & n' & Hr & Hinv' & Hcap' & He').
    { intros k' Hk' Hin. unfold keys in Hin.
      rewrite <- entries_of_keys in Hin. fold (entries c1) in Hin.
      rewrite He1, fmap_take in Hin. apply subseteq_take in Hin.
      simpl in Hin. apply elem_of_cons in Hin as [->|Hin]; [done|].
      unfold entries in Hin. rewrite entries_of_keys in Hin.
      apply (Hfresh k'); [by right|done]. }
    exists c', n'. split.
    { rewrite fmap_cons. eapply run_cons; [apply call_put; exact Hp|exact Hr]. }
    split; [done|]. split; [congruence|].
    rewrite He', He1, Hcap1, take_app_take, reverse_cons.
    by rewrite <- app_assoc.
Qed.

(** X10. Filling a constructed cache of capacity [C] with [put]s of
    pairwise distinct keys: every [put] returns true and the cache then
    holds, from head to tail, the last [C] pairs in reverse order of
    insertion, the earlier ones having been evicted in the order of their
    insertion.  When there are at most [C] pairs nothing is evicted and
    [get] returns the value of each key. *)
Theorem X10_fill_with_distinct_keys
    (C : N) (c0 : ThreadSafeLRUCache) (kvs : list (Key * Value)) (n : nat) :
  construct C = inr c0 →
  NoDup kvs.*1 →
  ∃ c' n',
    run ((fun kv => OpPut kv.1 kv.2) <$> kvs) (world c0 n)
    = Some (replicate (length kvs) (RBool true), world c' n') ∧
    entries c' = take (N.to_nat C) (reverse kvs) ∧
    size (world c' n')
    = Some (N.of_nat (length kvs `min` N.to_nat C), world c' n') ∧
    (length kvs ≤ N.to_nat C →
     ∀ k v, (k, v) ∈ kvs →
       ∃ c'', get k (world c' n') = Some (Some v, world c'' (S (S n')))).
Proof using Type*.
  intros Hc Hnd. pose proof (construct_inv _ _ Hc) as Hinv.
  apply construct_inr in Hc as [Hc0 HC].
  destruct (run_puts_entries kvs c0 n Hinv Hnd)
    as (c' & n' & Hr & Hinv' & Hcap' & He').
  { intros k _. rewrite Hc0. apply not_elem_of_nil. }
  rewrite Hc0 in He'. unfold entries at 2 in He'. simpl in He'.
  rewrite app_nil_r in He'.
  exists c', n'. split_and!; try done.
  - unfold size. cbv [bind read ret world self]. do 3 f_equal.
    apply (f_equal length) in He'. unfold entries, entries_of in He'.
    rewrite length_fmap, length_take, length_reverse in He'. lia.
  - intros Hlen k v Hin.
    destruct (get_contents c' n' k Hinv') as (c'' & Hg & _).
    exists c''. rewrite Hg. do 2 f_equal.
    unfold contents, contents_of. fold (entries c'). rewrite He'.
    rewrite take_ge by (rewrite length_reverse; lia).
    apply elem_of_list_to_map_1.
    + by rewrite fmap_reverse, reverse_Permutation.
    + by apply elem_of_reverse.
Qed.

(** * Further properties: how long a key stays *)

(** After a call that left [k] at the head, [put]s of new, pairwise
    distinct keys keep [k] as long as there are fewer of them than the
    capacity. *)
Lemma head_survives c1 n1 k v rest (kvs : list (Key * Value)) :
  cache_inv c1 → entries c1 = (k, v) :: rest →
  NoDup kvs.*1 → (∀ k', k' ∈ kvs.*1 → k' ∉ keys c1) →
  ∃ c' n',
    run ((fun kv => OpPut kv.1 kv.2) <$> kvs) (world c1 n1)
    = Some (replicate (length kvs) (RBool true), world c' n') ∧
    cache_inv c' ∧
    (length kvs < N.to_nat (capacity_ c1) → contents c' !! k = Some v) ∧
    (N.to_nat (capacity_ c1) ≤ length kvs → contents c' !! k = None).
Proof using Type*.
  intros Hinv He Hnd Hfresh.
  destruct (run_puts_entries kvs c1 n1 Hinv Hnd Hfresh)
    as (c' & n' & Hr & Hinv' & Hcap' & He').
  exists c', n'. split; [done|]. split; [done|].
  assert (k ∉ kvs.*1) as Hk.
  { intros Hin. apply (Hfresh k Hin). unfold keys.
    rewrite <- entries_of_keys. fold (entries c1). rewrite He. left. }
  pose proof Hinv' as [_ _ (_ & Hnk' & _)].
  rewrite <- entries_of_keys in Hnk'. fold (entries c') in Hnk'.
  split.
  - intros Hlen. unfold contents, contents_of. fold (entries c').
    apply elem_of_list_to_map_1; [done|]. rewrite He', He.
    apply elem_of_take. exists (length kvs). split; [|done].
    rewrite lookup_app_r by (by rewrite length_reverse).
    by rewrite length_reverse, Nat.sub_diag.
  - intros Hlen. apply contents_of_None. rewrite <- entries_of_keys.
    fold (entries c'). rewrite He'.
    rewrite take_app_le by (by rewrite length_reverse).
    rewrite fmap_take. intros Hin%subseteq_take.
    rewrite fmap_reverse, elem_of_reverse in Hin. done.
Qed.

(** X12. A key that [put] has just written survives the next
    [capacity - 1] insertions of new, pairwise distinct keys and not one
    more: after [put(k, v)] and [put]s of [m] such keys, [get(k)] returns
    [v] when [m < capacity] and none when [m >= capacity]. *)
Theorem X12_key_survives_after_put
    (c : ThreadSafeLRUCache) (k : Key) (v : Value)
    (kvs : list (Key * Value)) (n : nat) :
  cache_inv c →
  NoDup (k :: kvs.*1) →
  (∀ k', k' ∈ kvs.*1 → k' ∉ keys c) →
  ∃ c' n' c'',
    run (OpPut k v :: ((fun kv => OpPut kv.1 kv.2) <$> kvs)) (world c n)
    = Some (replicate (S (length kvs)) (RBool true), world c' n') ∧
    get k (world c' n')
    = Some (if decide (length kvs < N.to_nat (capacity_ c)) then Some v
            else None,
            world c'' (S (S n'))).
Proof using Type*.
  intros Hinv [Hk Hnd]%NoDup_cons Hfresh. pose proof Hinv as [Hcap Hsz Hl].
  assert (∃ c1 n1 rest,
            put k v (world c n) = Some (true, world c1 n1) ∧ cache_inv c1 ∧
            capacity_ c1 = capacity_ c ∧ entries c1 = (k, v) :: rest ∧
            (∀ k', k' ∈ rest.*1 → k' ∈ keys c))
    as (c1 & n1 & rest & Hp & Hinv1 & Hcap1 & He1 & Hrest).
  { destruct (index_ c !! k) as [it|] eqn:Hm.
    - destruct (linked_lookup _ _ _ _ Hl Hm)
        as (e & l1 & l2 & Hl12 & Hke & H1 & H2 & _).
      destruct (call_inv c n (OpPut k v) Hinv)
        as (r & c1 & n1 & Hc & Hinv1 & Hcap1 & _).
      pose proof (put_present c n k v it l1 l2 e Hm Hl12 H1 H2) as Hp.
      unfold call in Hc. rewrite (bind_Some _ _ _ _ _ Hp) in Hc.
      injection Hc as _ <- <-.
      eexists _, _, (entries_of (l1 ++ l2)). split; [exact Hp|].
      split; [done|]. split; [done|]. split.
      + unfold entries, entries_of. simpl. by rewrite Hke.
      + intros k'. rewrite entries_of_keys. unfold keys.
        rewrite Hl12, keys_of_middle.
        unfold keys_of. rewrite fmap_app, !elem_of_app, elem_of_cons.
        intros [?|?]; [by left|by right; right].
    - destruct (put_entries_absent c n k v Hinv Hm)
        as (c1 & n1 & Hp & Hinv1 & Hcap1 & He1).
      destruct (N.to_nat (capacity_ c)) as [|C'] eqn:HC; [lia|].
      exists c1, n1, (take C' (entries c)). split; [done|].
      split; [done|]. split; [done|]. split; [done|].
      intros k'. rewrite fmap_take. intros Hin%subseteq_take.
      unfold entries in Hin. by rewrite entries_of_keys in Hin. }
  destruct (head_survives c1 n1 k v rest kvs Hinv1 He1 Hnd)
    as (c' & n' & Hr & Hinv' & Hin & Hout).
  { intros k' Hk' Hin. unfold keys in Hin. rewrite <- entries_of_keys in Hin.
    fold (entries c1) in Hin. rewrite He1 in Hin. simpl in Hin.
    apply elem_of_cons in Hin as [->|Hin]; [done|].
    by apply (Hfresh k' Hk'), Hrest. }
  destruct (get_contents c' n' k Hinv') as (c'' & Hg & _).
  exists c', n', c''. split.
  - eapply run_cons; [apply call_put; exact Hp|exact Hr].
  - rewrite Hg, <- Hcap1. case_decide as Hd.
    + by rewrite Hin.
    + by rewrite Hout by lia.
Qed.

(** X13. The same for a key that [get] has just read: after a hit of
    [get(k)] and [put]s of [m] new, pairwise distinct keys, [get(k)]
    returns the value again when [m < capacity] and none when
    [m >= capacity]. *)
Theorem X13_key_survives_after_get
    (c : ThreadSafeLRUCache) (k : Key) (v : Value)
    (kvs : list (Key * Value)) (n : nat) :
  cache_inv c →
  contents c !! k = Some v →
  NoDup kvs.*1 →
  (∀ k', k' ∈ kvs.*1 → k' ∉ keys c) →
  ∃ c' n' c'',
    run (OpGet k :: ((fun kv => OpPut kv.1 kv.2) <$> kvs)) (world c n)
    = Some (RValue (Some v) :: replicate (length kvs) (RBool true),
            world c' n') ∧
    get k (world c' n')
    = Some (if decide (length kvs < N.to_nat (capacity_ c)) then Some v
            else None,
            world c'' (S (S n'))).
Proof using Type*.
  intros Hinv Hkv Hnd Hfresh. pose proof Hinv as [Hcap Hsz Hl].
  destruct (index_ c !! k) as [it|] eqn:Hm;
    [|apply (contents_index c k Hl) in Hm; congruence].
  destruct (linked_lookup _ _ _ _ Hl Hm)
    as (e & l1 & l2 & Hl12 & Hke & H1 & H2 & _).
  pose proof Hl as (_ & Hnk & _). rewrite Hl12 in Hnk.
  assert (value e = v) as Hv.
  { unfold contents in Hkv.
    rewrite Hl12, (contents_of_middle l1 l2 it e Hnk), Hke, lookup_insert_eq
      in Hkv. congruence. }
  destruct (call_inv c n (OpGet k) Hinv)
    as (r & c1 & n1 & Hc & Hinv1 & Hcap1 & _).
  pose proof (get_hit c n k it l1 l2 e Hm Hl12 H1 H2) as Hg1.
  unfold call in Hc. rewrite (bind_Some _ _ _ _ _ Hg1) in Hc.
  injection Hc as _ <- <-. rewrite Hv in Hg1.
  destruct (head_survives _ (S (S n)) k v (entries_of (l1 ++ l2)) kvs Hinv1)
    as (c' & n' & Hr & Hinv' & Hin & Hout); [|done| |].
  { unfold entries, entries_of. simpl. by rewrite Hke, Hv. }
  { intros k' Hk' Hin. apply (Hfresh k' Hk'). unfold keys in *. simpl in Hin.
    rewrite Hl12. unfold keys_of in *. by rewrite <- Permutation_middle. }
  destruct (get_contents c' n' k Hinv') as (c'' & Hg & _).
  exists c', n', c''. split.
  - eapply run_cons; [apply call_get; exact Hg1|exact Hr].
  - rewrite Hg. simpl in Hin, Hout. case_decide as Hd.
    + by rewrite Hin.
    + by rewrite Hout by lia.
Qed.

(** * Further properties: [move_to_front_unsafe] *)

(** X11. [move_to_front_unsafe(it)] on the node of a list whose nodes have
    distinct addresses relinks that node at the head and keeps the other
    nodes in their order: the nodes are the same, the index, the capacity
    and the counters are untouched, and a second call changes nothing. *)
Theorem X11_move_to_front
    (c : ThreadSafeLRUCache) (it : EntryIterator) (e : CacheEntry) (n : nat) :
  NoDup (lru_list_ c).*1 →
  list_deref it (lru_list_ c) = Some e →
  ∃ c', move_to_front_unsafe it (world c n) = Some (tt, world c' n) ∧
        lru_list_ c' = (it, e) :: list_unlink it (lru_list_ c) ∧
        lru_list_ c' ≡ₚ lru_list_ c ∧
        c' = set_lru_list (lru_list_ c') c ∧
        move_to_front_unsafe it (world c' n) = Some (tt, world c' n).
Proof using Type*.
  intros Hnd Hd. destruct (list_deref_split _ _ _ Hd) as (l1 & l2 & Hl12 & H1).
  assert (it ∉ l2.*1) as H2.
  { rewrite Hl12 in Hnd. by destruct (NoDup_middle_notin fst _ _ _ Hnd). }
  eexists. split; [by apply (move_to_front_spec c n l1 l2 it e)|].
  simpl. rewrite Hl12 at 1 2. rewrite list_unlink_middle by done.
  split_and!; try done.
  - by rewrite Permutation_middle.
  - assert (it ∉ (l1 ++ l2).*1) as H12.
    { rewrite fmap_app. intros [?|?]%elem_of_app; [by apply H1|by apply H2]. }
    exact (move_to_front_spec (set_lru_list ((it, e) :: l1 ++ l2) c) n []
             (l1 ++ l2) it e eq_refl (not_elem_of_nil it) H12).
Qed.

End Cache.

(** ** Two clocks *)

Section TwoClocks.

Context {Key : Type} `{Countable Key} {Value : Type}.
Variables clk1 clk2 : nat -> Z.

(** A call made under two clocks on caches that differ in timestamps only
    returns the same result and leaves caches that differ in timestamps
    only. *)
Lemma call_same_structure
    (c1 c2 : ThreadSafeLRUCache (Key:=Key) (Value:=Value)) op n1 n2 :
  cache_inv c1 → same_structure c1 c2 →
  ∃ r c1' c2' n1' n2',
    call clk1 op (world c1 n1) = Some (r, world c1' n1') ∧
    call clk2 op (world c2 n2) = Some (r, world c2' n2') ∧
    same_structure c1' c2'.
Proof.
  intros Hinv1 Hs. pose proof (same_structure_inv _ _ Hs Hinv1) as Hinv2.
  destruct Hs as (Hc & Hu & Hm & Hh & Hmi).
  pose proof Hinv1 as [Hcap1 Hsz1 Hl1]. pose proof Hinv2 as [Hcap2 Hsz2 Hl2].
  pose proof (untimed_length _ _ Hu) as Hlen.
  destruct op as [k|k v|k|k| | | | | |]; unfold call.
  - destruct (index_ c1 !! k) as [it|] eqn:Hm1.
    + pose proof Hm1 as Hm2. rewrite Hm in Hm2.
      destruct (get_hit_fn clk1 c1 n1 k it Hl1 Hm1) as (e1 & Hd1 & Hk1 & Hg1).
      destruct (get_hit_fn clk2 c2 n2 k it Hl2 Hm2) as (e2 & Hd2 & Hk2 & Hg2).
      pose proof (untimed_deref _ _ it Hu) as Hd. rewrite Hd1, Hd2 in Hd.
      injection Hd as _ Hv.
      rewrite (bind_Some _ _ _ _ _ Hg1), (bind_Some _ _ _ _ _ Hg2), Hv.
      eexists _, _, _, _, _. split; [done|]. split; [done|].
      unfold same_structure, untimed. simpl. rewrite Hk1, Hk2, Hv, Hh.
      split_and!; try done. f_equal. by apply untimed_unlink.
    + pose proof Hm1 as Hm2. rewrite Hm in Hm2.
      rewrite (bind_Some _ _ _ _ _ (get_miss clk1 c1 n1 k Hm1)).
      rewrite (bind_Some _ _ _ _ _ (get_miss clk2 c2 n2 k Hm2)).
      eexists _, _, _, _, _. split; [done|]. split; [done|].
      unfold same_structure. simpl. by rewrite Hmi.
  - destruct (index_ c1 !! k) as [it|] eqn:Hm1.
    + pose proof Hm1 as Hm2. rewrite Hm in Hm2.
      destruct (put_present_fn clk1 c1 n1 k v it Hl1 Hm1) as (e1 & Hd1 & Hk1 & Hg1).
      destruct (put_present_fn clk2 c2 n2 k v it Hl2 Hm2) as (e2 & Hd2 & Hk2 & Hg2).
      rewrite (bind_Some _ _ _ _ _ Hg1), (bind_Some _ _ _ _ _ Hg2).
      eexists _, _, _, _, _. split; [done|]. split; [done|].
      unfold same_structure, untimed. simpl. rewrite Hk1, Hk2.
      split_and!; try done. f_equal. by apply untimed_unlink.
    + pose proof Hm1 as Hm2. rewrite Hm in Hm2.
      destruct (decide (N.of_nat (length (lru_list_ c1)) < capacity_ c1)%N)
        as [Hlt|Hge].
      * assert (N.of_nat (length (lru_list_ c2)) < capacity_ c2)%N as Hlt2
          by (rewrite <- Hc, <- Hlen; done).
        rewrite (bind_Some _ _ _ _ _ (put_absent_room clk1 c1 n1 k v Hm1 Hlt)).
        rewrite (bind_Some _ _ _ _ _ (put_absent_room clk2 c2 n2 k v Hm2 Hlt2)).
        eexists _, _, _, _, _. split; [done|]. split; [done|].
        unfold same_structure, untimed. simpl.
        rewrite (untimed_new_node _ _ Hu), Hm.
        split_and!; try done. f_equal. exact Hu.
      * assert (N.of_nat (length (lru_list_ c1)) = capacity_ c1) as Hfull1 by lia.
        assert (N.of_nat (length (lru_list_ c2)) = capacity_ c2) as Hfull2
          by (rewrite <- Hc, <- Hlen; done).
        destruct (lru_list_ c1) as [|[it1 e1] l1 _] eqn:Hlist1 using rev_ind.
        { simpl in Hfull1. lia. }
        destruct (lru_list_ c2) as [|[it2 e2] l2 _] eqn:Hlist2 using rev_ind.
        { simpl in Hfull2. lia. }
        unfold untimed in Hu. rewrite !fmap_app in Hu. simpl in Hu.
        apply app_inj_tail in Hu as [Hu [= -> Hk Hv]].
        rewrite <- Hlist1 in Hfull1. rewrite <- Hlist2 in Hfull2.
        rewrite (bind_Some _ _ _ _ _
                   (put_absent_full clk1 c1 n1 k v l1 it2 e1 Hinv1 Hm1 Hfull1 Hlist1)).
        rewrite (bind_Some _ _ _ _ _
                   (put_absent_full clk2 c2 n2 k v l2 it2 e2 Hinv2 Hm2 Hfull2 Hlist2)).
        eexists _, _, _, _, _. split; [done|]. split; [done|].
        unfold same_structure, untimed. simpl.
        rewrite (untimed_new_node l1 l2 Hu), Hm, Hk.
        split_and!; try done. f_equal. exact Hu.
  - destruct (index_ c1 !! k) as [it|] eqn:Hm1.
    + pose proof Hm1 as Hm2. rewrite Hm in Hm2.
      rewrite (bind_Some _ _ _ _ _ (remove_present_fn c1 n1 k it Hl1 Hm1)).
      rewrite (bind_Some _ _ _ _ _ (remove_present_fn c2 n2 k it Hl2 Hm2)).
      eexists _, _, _, _, _. split; [done|]. split; [done|].
      unfold same_structure. simpl. rewrite Hm.
      split_and!; try done. by apply untimed_unlink.
    + pose proof Hm1 as Hm2. rewrite Hm in Hm2.
      rewrite (bind_Some _ _ _ _ _ (remove_absent c1 n1 k Hm1)).
      rewrite (bind_Some _ _ _ _ _ (remove_absent c2 n2 k Hm2)).
      eexists _, _, _, _, _. split; [done|]. split; [done|]. done.
  - cbv [contains bind read ret world self]. rewrite Hm.
    by eexists _, c1, c2, n1, n2.
  - cbv [size bind read ret world self]. rewrite Hlen.
    by eexists _, c1, c2, n1, n2.
  - cbv [capacity bind read ret world self]. rewrite Hc.
    by eexists _, c1, c2, n1, n2.
  - assert (bool_decide (lru_list_ c1 = []) = bool_decide (lru_list_ c2 = []))
      as Hemp by (by destruct (lru_list_ c1), (lru_list_ c2)).
    cbv [empty bind read ret world self]. rewrite Hemp.
    by eexists _, c1, c2, n1, n2.
  - eexists _, _, _, n1, n2. split; [reflexivity|]. split; [reflexivity|].
    unfold same_structure. simpl. done.
  - cbv [get_metrics bind read ret world self]. rewrite Hlen, Hc, Hh, Hmi.
    by eexists _, c1, c2, n1, n2.
  - eexists _, _, _, n1, n2. split; [reflexivity|]. split; [reflexivity|].
    unfold same_structure. simpl. done.
Qed.

Lemma run_same_structure
    (c1 c2 : ThreadSafeLRUCache (Key:=Key) (Value:=Value)) ops n1 n2 :
  cache_inv c1 → same_structure c1 c2 →
  ∃ rs c1' c2' n1' n2',
    run clk1 ops (world c1 n1) = Some (rs, world c1' n1') ∧
    run clk2 ops (world c2 n2) = Some (rs, world c2' n2') ∧
    same_structure c1' c2' ∧ cache_inv c1'.
Proof.
  revert c1 c2 n1 n2.
  induction ops as [|op ops IH]; intros c1 c2 n1 n2 Hinv Hs; simpl.
  - by exists [], c1, c2, n1, n2.
  - destruct (call_same_structure c1 c2 op n1 n2 Hinv Hs)
      as (r & c1' & c2' & n1' & n2' & Hc1 & Hc2 & Hs').
    destruct (call_inv clk1 c1 n1 op Hinv) as (r0 & c0 & n0 & Hc0 & Hinv' & _).
    rewrite Hc1 in Hc0. injection Hc0 as <- <- <-.
    destruct (IH c1' c2' n1' n2' Hinv' Hs')
      as (rs & c1'' & c2'' & n1'' & n2'' & Hr1 & Hr2 & Hs'' & Hinv'').
    exists (r :: rs), c1'', c2'', n1'', n2''.
    rewrite (bind_Some _ _ _ _ _ Hc1), (bind_Some _ _ _ _ _ Hr1).
    rewrite (bind_Some _ _ _ _ _ Hc2), (bind_Some _ _ _ _ _ Hr2).
    done.
Qed.

Lemma same_structure_refl (c : ThreadSafeLRUCache (Key:=Key) (Value:=Value)) :
  same_structure c c.
Proof. by unfold same_structure. Qed.

Lemma same_structure_keys (c1 c2 : ThreadSafeLRUCache (Key:=Key) (Value:=Value)) :
  same_structure c1 c2 → keys c1 = keys c2.
Proof.
  intros (_ & Hu & _). unfold keys. by rewrite <- !untimed_keys, Hu.
Qed.

End TwoClocks.

(** * The properties that speak of the cache of the tests,
      [ThreadSafeLRUCache<int, std::string>], or of two clocks *)

(** C2. On a cache of capacity 3, [put(1), put(2), put(3), get(1)] leaves
    the keys in the order 1, 3, 2 from head to tail, and [put(4)] then
    leaves the keys 4, 1, 3: [contains] is true of 1, 3, 4 and false of 2.
    In general, in a cache that satisfies the invariant and is full, [put]
    of an absent key unlinks exactly the tail node, deletes its key from
    the index and links the new entry at the head, the other nodes staying
    in their order; a hit of [get] relinks the node of the key at the head,
    the other nodes staying in their order, and leaves the index alone.
    After every call, and so after every sequence of calls on a constructed
    cache, the keys of the list from head to tail are the recency order
    [lru_order_after] of the specification. *)
Theorem C2_eviction_follows_recency :
  (∀ (steady_clock_now : nat → Z) (n : nat) (c0 : ThreadSafeLRUCache),
     construct 3 = inr c0 →
     ∃ w1 w2,
       run steady_clock_now
         [OpPut 1%Z "one"; OpPut 2%Z "two"; OpPut 3%Z "three"; OpGet 1%Z]
         (world c0 n)
       = Some ([RBool true; RBool true; RBool true; RValue (Some "one")], w1) ∧
       keys (self w1) = [1; 3; 2]%Z ∧
       run steady_clock_now
         [OpPut 1%Z "one"; OpPut 2%Z "two"; OpPut 3%Z "three"; OpGet 1%Z;
          OpPut 4%Z "four"; OpContains 1%Z; OpContains 2%Z; OpContains 3%Z;
          OpContains 4%Z; OpSize]
         (world c0 n)
       = Some ([RBool true; RBool true; RBool true; RValue (Some "one");
                RBool true; RBool true; RBool false; RBool true; RBool true;
                RSize 3], w2) ∧
       keys (self w2) = [4; 1; 3]%Z) ∧
  (∀ {Key : Type} `{Countable Key} {Value : Type}
     (steady_clock_now : nat → Z)
     (c : ThreadSafeLRUCache (Key:=Key) (Value:=Value)) k v n,
     cache_inv c →
     contains k (world c n) = Some (false, world c n) →
     size (world c n) = Some (capacity_ c, world c n) →
     ∃ c' l0 it e it',
       lru_list_ c = l0 ++ [(it, e)] ∧
       put steady_clock_now k v (world c n)
       = Some (true, world c' (S (S (S n)))) ∧
       lru_list_ c'
       = (it', {| key := k; value := v;
                  access_time := steady_clock_now (S n) |}) :: l0 ∧
       index_ c' = <[k := it']> (delete (key e) (index_ c)) ∧
       keys c = keys_of l0 ++ [key e] ∧
       keys c' = k :: keys_of l0 ∧
       size (world c' n) = Some (capacity_ c, world c' n) ∧
       contains (key e) (world c' n) = Some (false, world c' n)) ∧
  (∀ {Key : Type} `{Countable Key} {Value : Type}
     (steady_clock_now : nat → Z)
     (c : ThreadSafeLRUCache (Key:=Key) (Value:=Value)) k n,
     cache_inv c →
     contains k (world c n) = Some (true, world c n) →
     ∃ c' l1 it e l2,
       lru_list_ c = l1 ++ (it, e) :: l2 ∧ key e = k ∧
       get steady_clock_now k (world c n)
       = Some (Some (value e), world c' (S (S n))) ∧
       lru_list_ c' = (it, e) :: l1 ++ l2 ∧
       index_ c' = index_ c) ∧
  (∀ {Key : Type} `{Countable Key} {Value : Type}
     (steady_clock_now : nat → Z)
     (c : ThreadSafeLRUCache (Key:=Key) (Value:=Value)) op n r w',
     cache_inv c →
     call steady_clock_now op (world c n) = Some (r, w') →
     keys (self w') = lru_order_after (capacity_ c) op (keys c)) ∧
  (∀ {Key : Type} `{Countable Key} {Value : Type}
     (steady_clock_now : nat → Z) (C : N)
     (c0 : ThreadSafeLRUCache (Key:=Key) (Value:=Value)) ops n,
     construct C = inr c0 →
     ∃ rs w,
       run steady_clock_now ops (world c0 n) = Some (rs, w) ∧
       keys (self w)
       = fold_left (fun ks op => lru_order_after C op ks) ops []).
Proof.
  split_and!.
  - intros clk n c0 Hc. pose proof (construct_inv _ _ Hc) as Hinv.
    apply construct_inr in Hc as [Hc0 _].
    pose proof (same_structure_refl c0) as Hrefl.
    destruct (run_same_structure (fun _ => 0%Z) clk c0 c0
                [OpPut 1%Z "one"; OpPut 2%Z "two"; OpPut 3%Z "three"; OpGet 1%Z]
                0 n Hinv Hrefl)
      as (rs1 & a1 & b1 & na1 & nb1 & Ha1 & Hb1 & Hs1 & _).
    destruct (run_same_structure (fun _ => 0%Z) clk c0 c0
                [OpPut 1%Z "one"; OpPut 2%Z "two"; OpPut 3%Z "three"; OpGet 1%Z;
                 OpPut 4%Z "four"; OpContains 1%Z; OpContains 2%Z;
                 OpContains 3%Z; OpContains 4%Z; OpSize]
                0 n Hinv Hrefl)
      as (rs2 & a2 & b2 & na2 & nb2 & Ha2 & Hb2 & Hs2 & _).
    rewrite Hc0 in Ha1, Ha2. vm_compute in Ha1. vm_compute in Ha2.
    injection Ha1 as <- <- <-. injection Ha2 as <- <- <-.
    exists (world b1 nb1), (world b2 nb2).
    split; [exact Hb1|]. simpl.
    split; [by rewrite <- (same_structure_keys _ _ Hs1)|].
    split; [exact Hb2|]. by rewrite <- (same_structure_keys _ _ Hs2).
  - intros Key ? ? Value clk c k v n Hinv Hm%contains_false [= Hsz].
    pose proof Hinv as [Hcap _ Hl].
    assert (∃ l0 it e, lru_list_ c = l0 ++ [(it, e)]) as (l0 & it & e & Hlist).
    { destruct (lru_list_ c) as [|[it e] l0 _] using rev_ind.
      - simpl in Hsz. lia.
      - by exists l0, it, e. }
    exists (charged clk n (S (S n))
              (set_index (<[k := new_node l0]> (delete (key e) (index_ c)))
                 (set_lru_list
                    (list_emplace_front k v (clk (S n)) l0)
                    (set_lru_list l0
                       (set_index (delete (key e) (index_ c)) c))))),
      l0, it, e, (new_node l0).
    split; [done|]. split.
    { by apply (put_absent_full clk c n k v l0 it e). }
    simpl. split; [done|]. split; [done|].
    split. { unfold keys, keys_of. rewrite Hlist, fmap_app. done. }
    split; [done|].
    split.
    { unfold size. cbv [bind read ret world self]. simpl.
      rewrite <- Hsz, Hlist, length_app. simpl. do 3 f_equal. lia. }
    rewrite contains_spec. simpl.
    rewrite lookup_insert_ne, lookup_delete_eq; [done|].
    intros Heq. destruct Hl as (_ & _ & Hi).
    assert (index_ c !! key e = Some it) as Hs; [|congruence].
    apply Hi. exists e. split; [|done]. rewrite Hlist.
    apply elem_of_app. right. left.
  - intros Key ? ? Value clk c k n [_ _ Hl] [it Hm]%contains_true.
    destruct (linked_lookup _ _ _ _ Hl Hm)
      as (e & l1 & l2 & Hl12 & Hk & H1 & H2 & _).
    eexists _, l1, it, e, l2. split; [done|]. split; [done|].
    split; [by eapply get_hit|]. done.
  - intros Key ? ? Value clk c op n r w'. apply call_keys.
  - intros Key ? ? Value clk C c0 ops n Hc.
    pose proof (construct_inv _ _ Hc) as Hinv.
    destruct (run_inv clk c0 n ops Hinv) as (rs & c' & n' & Hr & _).
    exists rs, (world c' n'). split; [done|].
    rewrite (run_keys clk c0 n ops rs _ Hinv Hr).
    by apply construct_inr in Hc as [-> _].
Qed.

(** C7. On a cache that satisfies the invariant [put] returns true; when
    the key is present the node of the key keeps its address, its key and
    its timestamp, takes the new value and is relinked at the head, the
    other nodes stay in their order, and the index, the size and the
    capacity are what they were: nothing is evicted.  On a cache of any
    capacity [> 0], [put(1,"one"), put(1,"updated")] gives [size() == 1]
    and [get(1)] then returns "updated". *)
Theorem C7_put_returns_true_and_updates_in_place :
  (∀ {Key : Type} `{Countable Key} {Value : Type}
     (steady_clock_now : nat → Z)
     (c : ThreadSafeLRUCache (Key:=Key) (Value:=Value)) k v n,
     cache_inv c →
     ∃ w', put steady_clock_now k v (world c n) = Some (true, w')) ∧
  (∀ {Key : Type} `{Countable Key} {Value : Type}
     (steady_clock_now : nat → Z)
     (c : ThreadSafeLRUCache (Key:=Key) (Value:=Value)) k v n,
     cache_inv c →
     contains k (world c n) = Some (true, world c n) →
     ∃ c' l1 it e l2,
       lru_list_ c = l1 ++ (it, e) :: l2 ∧ key e = k ∧
       put steady_clock_now k v (world c n)
       = Some (true, world c' (S (S n))) ∧
       lru_list_ c'
       = (it, {| key := k; value := v; access_time := access_time e |})
           :: l1 ++ l2 ∧
       index_ c' = index_ c ∧
       capacity_ c' = capacity_ c ∧
       (∃ sz, size (world c n) = Some (sz, world c n) ∧
              size (world c' n) = Some (sz, world c' n))) ∧
  (∀ (steady_clock_now : nat → Z) (n : nat) (C : N) (c0 : ThreadSafeLRUCache),
     construct C = inr c0 →
     ∃ w,
       run steady_clock_now
         [OpPut 1%Z "one"; OpPut 1%Z "updated"; OpSize; OpGet 1%Z]
         (world c0 n)
       = Some ([RBool true; RBool true; RSize 1; RValue (Some "updated")], w)).
Proof.
  split_and!.
  - intros Key ? ? Value clk c k v n Hinv.
    destruct (put_total clk c n k v Hinv) as (c' & n' & Hp). by eexists.
  - intros Key ? ? Value clk c k v n [_ _ Hl] [it Hm]%contains_true.
    destruct (linked_lookup _ _ _ _ Hl Hm)
      as (e & l1 & l2 & Hl12 & Hk & H1 & H2 & _).
    eexists _, l1, it, e, l2. split; [done|]. split; [done|].
    split; [by eapply put_present|]. simpl. subst k.
    split_and!; try done.
    eexists. split; [reflexivity|]. unfold size.
    cbv [bind read ret world self]. simpl. do 3 f_equal.
    rewrite Hl12, !length_app. simpl. done.
  - intros clk n C c0 Hc. pose proof (construct_inv _ _ Hc) as Hinv.
    apply construct_inr in Hc as [Hc0 HC].
    pose proof (same_structure_refl c0) as Hrefl.
    destruct (run_same_structure (fun _ => 0%Z) clk c0 c0
                [OpPut 1%Z "one"; OpPut 1%Z "updated"; OpSize; OpGet 1%Z]
                0 n Hinv Hrefl)
      as (rs & a & b & na & nb & Ha & Hb & _).
    destruct C as [|p]; [lia|]. rewrite Hc0 in Ha.
    vm_compute in Ha. injection Ha as <- <- <-.
    by exists (world b nb).
Qed.

(** C10. The timestamp of an entry is the clock reading made when [put]
    constructs the entry for an absent key; after any call, every node of
    the list either was in the list before the call, with the same key and
    the same timestamp, or is the node this call, a [put] of a key that was
    absent, created; a hit of [get] brings the node to the head with its
    entry as it was; a [put] on a present key brings the node to the head
    with the new value and the timestamp it had.  The timestamps play no
    part in what the cache does: under two different clocks the same calls
    on a constructed cache return the same results and leave the same
    nodes, keys and values in the same order, the same index and the same
    counters. *)
Theorem C10_access_time_set_once :
  (∀ {Key : Type} `{Countable Key} {Value : Type}
     (steady_clock_now : nat → Z)
     (c : ThreadSafeLRUCache (Key:=Key) (Value:=Value)) k v n,
     cache_inv c → contains k (world c n) = Some (false, world c n) →
     ∃ c' it l',
       put steady_clock_now k v (world c n)
       = Some (true, world c' (S (S (S n)))) ∧
       lru_list_ c'
       = (it, {| key := k; value := v;
                 access_time := steady_clock_now (S n) |}) :: l') ∧
  (∀ {Key : Type} `{Countable Key} {Value : Type}
     (steady_clock_now : nat → Z)
     (c : ThreadSafeLRUCache (Key:=Key) (Value:=Value)) op n r w' it' e',
     cache_inv c →
     call steady_clock_now op (world c n) = Some (r, w') →
     (it', e') ∈ lru_list_ (self w') →
     (∃ e0, (it', e0) ∈ lru_list_ c ∧ key e0 = key e' ∧
            access_time e0 = access_time e')
     ∨ ((key e' ∉ keys c) ∧ (∃ v, op = OpPut (key e') v) ∧
        access_time e' = steady_clock_now (S n))) ∧
  (∀ {Key : Type} `{Countable Key} {Value : Type}
     (steady_clock_now : nat → Z)
     (c : ThreadSafeLRUCache (Key:=Key) (Value:=Value)) n it e,
     cache_inv c → (it, e) ∈ lru_list_ c →
     ∃ c' l',
       get steady_clock_now (key e) (world c n)
       = Some (Some (value e), world c' (S (S n))) ∧
       lru_list_ c' = (it, e) :: l') ∧
  (∀ {Key : Type} `{Countable Key} {Value : Type}
     (steady_clock_now : nat → Z)
     (c : ThreadSafeLRUCache (Key:=Key) (Value:=Value)) v n it e,
     cache_inv c → (it, e) ∈ lru_list_ c →
     ∃ c' l',
       put steady_clock_now (key e) v (world c n)
       = Some (true, world c' (S (S n))) ∧
       lru_list_ c'
       = (it, {| key := key e; value := v; access_time := access_time e |})
           :: l') ∧
  (∀ {Key : Type} `{Countable Key} {Value : Type}
     (clk1 clk2 : nat → Z) (C : N)
     (c0 : ThreadSafeLRUCache (Key:=Key) (Value:=Value)) ops n1 n2,
     construct C = inr c0 →
     ∃ rs w1 w2,
       run clk1 ops (world c0 n1) = Some (rs, w1) ∧
       run clk2 ops (world c0 n2) = Some (rs, w2) ∧
       same_structure (self w1) (self w2)).
Proof.
  split_and!.
  - intros Key ? ? Value clk c k v n Hinv Hm%contains_false.
    destruct (evict_total c (S n) Hinv) as [c1 Hev].
    eexists _, _, _. split; [by eapply put_absent|]. done.
  - intros Key ? ? Value clk c op n r w' it' e' [_ _ Hl]. by apply call_nodes.
  - intros Key ? ? Value clk c n it e [_ _ Hl] Hin.
    destruct (linked_elem_of _ _ _ _ Hl Hin) as (l1 & l2 & Hm & Hl12 & H1 & H2).
    eexists _, _. split; [by eapply get_hit|]. done.
  - intros Key ? ? Value clk c v n it e [_ _ Hl] Hin.
    destruct (linked_elem_of _ _ _ _ Hl Hin) as (l1 & l2 & Hm & Hl12 & H1 & H2).
    eexists _, _. split; [by eapply put_present|]. done.
  - intros Key ? ? Value clk1 clk2 C c0 ops n1 n2 Hc.
    apply construct_inv in Hc.
    destruct (run_same_structure clk1 clk2 c0 c0 ops n1 n2 Hc
                (same_structure_refl c0))
      as (rs & c1' & c2' & n1' & n2' & Hr1 & Hr2 & Hs & _).
    by exists rs, (world c1' n1'), (world c2' n2').
Qed.

(** * The properties at concrete caches *)

(** C1 at capacity 3, after the first five of six calls. *)
Lemma C1_size_within_capacity_witness :
  (0 < 3)%N ∧
  ∃ (c0 : ThreadSafeLRUCache (Key:=Z) (Value:=string)) rs w sz cap,
    construct 3 = inr c0 ∧
    run Z.of_nat
      (take 5 [OpPut 1%Z "one"; OpPut 2%Z "two"; OpGet 1%Z; OpPut 3%Z "three";
               OpPut 4%Z "four"; OpClear])
      (world c0 0) = Some (rs, w) ∧
    size w = Some (sz, w) ∧
    capacity w = Some (cap, w) ∧
    cap = 3%N ∧ (0 <= sz)%N ∧ (sz <= cap)%N.
Proof.
  split; [reflexivity|].
  apply (C1_size_within_capacity (Key:=Z) (Value:=string) Z.of_nat 3).
  reflexivity.
Defined.

(** C2 at a full cache of capacity 1 that holds key 1: [put(2)] evicts it. *)
Lemma C2_eviction_follows_recency_witness :
  let c : ThreadSafeLRUCache (Key:=Z) (Value:=string) :=
    {| capacity_ := 1;
       lru_list_ := [(1, {| key := 1%Z; value := "one"; access_time := 1 |})];
       index_ := <[1%Z := 1]> ∅;
       hit_count_ := 0; miss_count_ := 0; total_access_time_ns_ := 2 |} in
  cache_inv c ∧
  contains 2%Z (world c 3) = Some (false, world c 3) ∧
  size (world c 3) = Some (capacity_ c, world c 3) ∧
  ∃ c', put Z.of_nat 2%Z "two" (world c 3) = Some (true, world c' 6) ∧
        keys c' = 2%Z :: removelast (keys c) ∧
        contains 1%Z (world c' 3) = Some (false, world c' 3).
Proof.
  intros c.
  assert (cache_inv c) as Hinv
    by (apply (cache_inv_one_entry 1 1
                 {| key := 1%Z; value := "one"; access_time := 1 |}); reflexivity).
  assert (contains 2%Z (world c 3) = Some (false, world c 3)) as Hk
    by (vm_compute; reflexivity).
  assert (size (world c 3) = Some (capacity_ c, world c 3)) as Hsz
    by reflexivity.
  split; [exact Hinv|]. split; [exact Hk|]. split; [exact Hsz|].
  destruct C2_eviction_follows_recency as (_ & Hfull & _).
  destruct (Hfull Z _ _ string Z.of_nat c 2%Z "two" 3 Hinv Hk Hsz)
    as (c' & l0 & it & e & it' & Hl & Hput & _ & _ & Hks & Hks' & _ & Hcont).
  exists c'. split; [exact Hput|]. split.
  - rewrite Hks', Hks. by rewrite removelast_last.
  - assert (key e = 1%Z) as <-; [|exact Hcont].
    unfold c in Hl. simpl in Hl. destruct l0 as [|x l0].
    + injection Hl as _ <-. reflexivity.
    + destruct l0; discriminate.
Defined.

(** C3 at a constructed cache and a first [put]. *)
Lemma C3_index_matches_sequence_witness :
  ∃ (c : ThreadSafeLRUCache (Key:=Z) (Value:=string)) r w',
    construct 3 = inr c ∧
    structure_inv c ∧
    call Z.of_nat (OpPut 1%Z "one") (world c 0) = Some (r, w') ∧
    structure_inv (self w').
Proof.
  destruct (C3_index_matches_sequence (Key:=Z) (Value:=string) Z.of_nat)
    as (Hnew & Hcall & _).
  destruct (construct (Key:=Z) (Value:=string) 3) as [x|c] eqn:Hc;
    [discriminate|].
  pose proof (Hnew 3%N c Hc) as Hs.
  destruct (call Z.of_nat (OpPut 1%Z "one") (world c 0)) as [[r w']|] eqn:E.
  - exists c, r, w'. split; [reflexivity|]. split; [exact Hs|].
    split; [exact E|]. exact (Hcall c 0 _ r w' Hs E).
  - injection Hc as <-. vm_compute in E. discriminate.
Defined.

(** C4 at a run with three [get] calls, one of them after the reset. *)
Lemma C4_hits_plus_misses_witness :
  ∃ (c0 : ThreadSafeLRUCache (Key:=Z) (Value:=string)) rs w m,
    construct 3 = inr c0 ∧
    (N.of_nat (gets_since_reset (Key:=Z) (Value:=string)
                 [OpPut 1%Z "one"; OpGet 1%Z; OpGet 2%Z; OpResetMetrics;
                  OpContains 1%Z; OpGet 1%Z]) < 2 ^ 64)%N ∧
    run Z.of_nat
      [OpPut 1%Z "one"; OpGet 1%Z; OpGet 2%Z; OpResetMetrics;
       OpContains 1%Z; OpGet 1%Z]
      (world c0 0) = Some (rs, w) ∧
    get_metrics w = Some (m, w) ∧
    (CacheMetrics.hits m + CacheMetrics.misses m)%N = 1%N.
Proof.
  destruct (C4_hits_plus_misses (Key:=Z) (Value:=string) Z.of_nat)
    as (Hrun & _).
  destruct (construct (Key:=Z) (Value:=string) 3) as [x|c0] eqn:Hc;
    [discriminate|].
  destruct (Hrun 3%N c0
              [OpPut 1%Z "one"; OpGet 1%Z; OpGet 2%Z; OpResetMetrics;
               OpContains 1%Z; OpGet 1%Z] 0 Hc)
    as (rs & w & m & Hr & Hm & _ & Hexact).
  exists c0, rs, w, m. split; [reflexivity|]. split; [reflexivity|].
  split; [exact Hr|]. split; [exact Hm|]. apply Hexact. reflexivity.
Defined.

(** C5 at capacity 3 and a first [get]. *)
Lemma C5_only_construction_fails_witness :
  (0 < 3)%N ∧
  ∃ (c : ThreadSafeLRUCache (Key:=Z) (Value:=string)) r w',
    construct 3 = inr c ∧
    call Z.of_nat (OpGet 7%Z) (world c 0) = Some (r, w').
Proof.
  destruct (C5_only_construction_fails (Key:=Z) (Value:=string) Z.of_nat)
    as (_ & _ & _ & Hnew & Hcall & _).
  split; [reflexivity|].
  destruct (Hnew 3%N eq_refl) as (c & Hc & _).
  destruct (Hcall 3%N c (OpGet 7%Z) 0 Hc) as (r & w' & Hr).
  by exists c, r, w'.
Defined.

(** C6 at a cache that holds key 1 and not key 2. *)
Lemma C6_remove_and_get_of_absent_key_witness :
  let c : ThreadSafeLRUCache (Key:=Z) (Value:=string) :=
    {| capacity_ := 3;
       lru_list_ := [(1, {| key := 1%Z; value := "one"; access_time := 1 |})];
       index_ := <[1%Z := 1]> ∅;
       hit_count_ := 0; miss_count_ := 0; total_access_time_ns_ := 2 |} in
  contains 2%Z (world c 3) = Some (false, world c 3) ∧
  cache_inv c ∧
  contains 1%Z (world c 3) = Some (true, world c 3) ∧
  remove 2%Z (world c 3) = Some (false, world c 3) ∧
  ∃ c', remove 1%Z (world c 3) = Some (true, world c' 3) ∧ lru_list_ c' = [].
Proof.
  intros c.
  assert (cache_inv c) as Hinv
    by (apply (cache_inv_one_entry 3 1
                 {| key := 1%Z; value := "one"; access_time := 1 |}); reflexivity).
  assert (contains 2%Z (world c 3) = Some (false, world c 3)) as H2
    by (vm_compute; reflexivity).
  assert (contains 1%Z (world c 3) = Some (true, world c 3)) as H1
    by (vm_compute; reflexivity).
  split; [exact H2|]. split; [exact Hinv|]. split; [exact H1|].
  destruct (C6_remove_and_get_of_absent_key Z.of_nat c 2%Z 3) as [Habs _].
  destruct (C6_remove_and_get_of_absent_key Z.of_nat c 1%Z 3) as [_ Hpres].
  split; [exact (proj1 (Habs H2))|].
  destruct (Hpres Hinv H1) as (c' & l1 & it & e & l2 & Hr & Hl & _ & Hl' & _).
  exists c'. split; [exact Hr|]. rewrite Hl'. unfold c in Hl. simpl in Hl.
  destruct l1 as [|x l1].
  - injection Hl as _ _ <-. reflexivity.
  - destruct l1; discriminate.
Defined.

(** C7 at a cache that holds key 1: [put(1, "updated")]. *)
Lemma C7_put_returns_true_and_updates_in_place_witness :
  let c : ThreadSafeLRUCache (Key:=Z) (Value:=string) :=
    {| capacity_ := 3;
       lru_list_ := [(1, {| key := 1%Z; value := "one"; access_time := 1 |})];
       index_ := <[1%Z := 1]> ∅;
       hit_count_ := 0; miss_count_ := 0; total_access_time_ns_ := 2 |} in
  cache_inv c ∧
  contains 1%Z (world c 3) = Some (true, world c 3) ∧
  ∃ c' sz, put Z.of_nat 1%Z "updated" (world c 3) = Some (true, world c' 5) ∧
           index_ c' = index_ c ∧
           size (world c 3) = Some (sz, world c 3) ∧
           size (world c' 3) = Some (sz, world c' 3).
Proof.
  intros c.
  assert (cache_inv c) as Hinv
    by (apply (cache_inv_one_entry 3 1
                 {| key := 1%Z; value := "one"; access_time := 1 |}); reflexivity).
  assert (contains 1%Z (world c 3) = Some (true, world c 3)) as H1
    by (vm_compute; reflexivity).
  split; [exact Hinv|]. split; [exact H1|].
  destruct C7_put_returns_true_and_updates_in_place as (_ & Hpres & _).
  destruct (Hpres Z _ _ string Z.of_nat c 1%Z "updated" 3 Hinv H1)
    as (c' & l1 & it & e & l2 & _ & _ & Hput & _ & Hidx & _ & sz & Hsz & Hsz').
  exists c', sz. split; [exact Hput|]. split; [exact Hidx|].
  split; [exact Hsz|exact Hsz'].
Defined.

(** C10 at a cache that holds key 1: a hit of [get] and an overwriting
    [put] leave the timestamp 1 of the entry. *)
Lemma C10_access_time_set_once_witness :
  let e1 := {| key := 1%Z; value := "one"; access_time := 1 |} in
  let c : ThreadSafeLRUCache (Key:=Z) (Value:=string) :=
    {| capacity_ := 3;
       lru_list_ := [(1, e1)];
       index_ := <[1%Z := 1]> ∅;
       hit_count_ := 0; miss_count_ := 0; total_access_time_ns_ := 2 |} in
  cache_inv c ∧
  (1, e1) ∈ lru_list_ c ∧
  (∃ c' l', get Z.of_nat 1%Z (world c 3) = Some (Some "one", world c' 5) ∧
            lru_list_ c' = (1, e1) :: l') ∧
  (∃ c' l', put Z.of_nat 1%Z "updated" (world c 3) = Some (true, world c' 5) ∧
            lru_list_ c'
            = (1, {| key := 1%Z; value := "updated"; access_time := 1 |}) :: l').
Proof.
  intros e1 c.
  assert (cache_inv c) as Hinv
    by (apply (cache_inv_one_entry 3 1 e1); reflexivity).
  assert ((1, e1) ∈ lru_list_ c) as Hin by (left).
  split; [exact Hinv|]. split; [exact Hin|].
  destruct C10_access_time_set_once as (_ & _ & Hget & Hput & _).
  split.
  - exact (Hget Z _ _ string Z.of_nat c 3 1 e1 Hinv Hin).
  - exact (Hput Z _ _ string Z.of_nat c "updated" 3 1 e1 Hinv Hin).
Defined.

(** * The further properties at concrete caches *)

(** X1 at a cache that holds key 1. *)
Lemma X1_get_returns_the_stored_value_witness :
  let c : ThreadSafeLRUCache (Key:=Z) (Value:=string) :=
    {| capacity_ := 3;
       lru_list_ := [(1, {| key := 1%Z; value := "one"; access_time := 1 |})];
       index_ := <[1%Z := 1]> ∅;
       hit_count_ := 0; miss_count_ := 0; total_access_time_ns_ := 2 |} in
  cache_inv c ∧
  ∃ c', get Z.of_nat 1%Z (world c 3) = Some (Some "one", world c' 5) ∧
        contents c' = contents c.
Proof.
  intros c.
  assert (cache_inv c) as Hinv
    by (apply (cache_inv_one_entry 3 1
                 {| key := 1%Z; value := "one"; access_time := 1 |}); reflexivity).
  split; [exact Hinv|].
  destruct (X1_get_returns_the_stored_value Z.of_nat c 1%Z 3 Hinv)
    as (c' & Hg & Hc & _).
  exists c'. split; [|exact Hc]. rewrite Hg. reflexivity.
Defined.

(** X2 at a cache that holds key 1. *)
Lemma X2_observers_agree_with_contents_witness :
  let c : ThreadSafeLRUCache (Key:=Z) (Value:=string) :=
    {| capacity_ := 3;
       lru_list_ := [(1, {| key := 1%Z; value := "one"; access_time := 1 |})];
       index_ := <[1%Z := 1]> ∅;
       hit_count_ := 0; miss_count_ := 0; total_access_time_ns_ := 2 |} in
  cache_inv c ∧
  contains 1%Z (world c 3)
  = Some (bool_decide (is_Some (contents c !! 1%Z)), world c 3) ∧
  size (world c 3) = Some (N.of_nat (base.size (contents c)), world c 3).
Proof.
  intros c.
  assert (cache_inv c) as Hinv
    by (apply (cache_inv_one_entry 3 1
                 {| key := 1%Z; value := "one"; access_time := 1 |}); reflexivity).
  split; [exact Hinv|].
  destruct (X2_observers_agree_with_contents c 1%Z 3 Hinv) as (Hc & Hs & _).
  split; [exact Hc|exact Hs].
Defined.

(** X3 at a cache that holds key 1: [put(2, "two")]. *)
Lemma X3_put_stores_the_value_witness :
  let c : ThreadSafeLRUCache (Key:=Z) (Value:=string) :=
    {| capacity_ := 3;
       lru_list_ := [(1, {| key := 1%Z; value := "one"; access_time := 1 |})];
       index_ := <[1%Z := 1]> ∅;
       hit_count_ := 0; miss_count_ := 0; total_access_time_ns_ := 2 |} in
  cache_inv c ∧
  ∃ c' n', put Z.of_nat 2%Z "two" (world c 3) = Some (true, world c' n') ∧
           contents c' !! 2%Z = Some "two".
Proof.
  intros c.
  assert (cache_inv c) as Hinv
    by (apply (cache_inv_one_entry 3 1
                 {| key := 1%Z; value := "one"; access_time := 1 |}); reflexivity).
  split; [exact Hinv|].
  destruct (X3_put_stores_the_value Z.of_nat c 2%Z "two" 3 Hinv)
    as (c' & n' & Hp & Hk & _).
  by exists c', n'.
Defined.

(** X4 at a cache that holds key 1: [remove(1)]. *)
Lemma X4_remove_deletes_the_key_witness :
  let c : ThreadSafeLRUCache (Key:=Z) (Value:=string) :=
    {| capacity_ := 3;
       lru_list_ := [(1, {| key := 1%Z; value := "one"; access_time := 1 |})];
       index_ := <[1%Z := 1]> ∅;
       hit_count_ := 0; miss_count_ := 0; total_access_time_ns_ := 2 |} in
  cache_inv c ∧
  ∃ c', remove 1%Z (world c 3) = Some (true, world c' 3) ∧
        contents c' !! 1%Z = None.
Proof.
  intros c.
  assert (cache_inv c) as Hinv
    by (apply (cache_inv_one_entry 3 1
                 {| key := 1%Z; value := "one"; access_time := 1 |}); reflexivity).
  split; [exact Hinv|].
  destruct (X4_remove_deletes_the_key c 1%Z 3 Hinv) as (c' & Hr & _ & Hk & _).
  exists c'. split; [|exact Hk]. rewrite Hr. reflexivity.
Defined.

(** X5 at a cache that holds key 1: [put(2, "two")], [get(2)]. *)
Lemma X5_get_after_put_witness :
  let c : ThreadSafeLRUCache (Key:=Z) (Value:=string) :=
    {| capacity_ := 3;
       lru_list_ := [(1, {| key := 1%Z; value := "one"; access_time := 1 |})];
       index_ := <[1%Z := 1]> ∅;
       hit_count_ := 0; miss_count_ := 0; total_access_time_ns_ := 2 |} in
  cache_inv c ∧
  ∃ w', run Z.of_nat [OpPut 2%Z "two"; OpGet 2%Z; OpContains 2%Z] (world c 3)
        = Some ([RBool true; RValue (Some "two"); RBool true], w').
Proof.
  intros c.
  assert (cache_inv c) as Hinv
    by (apply (cache_inv_one_entry 3 1
                 {| key := 1%Z; value := "one"; access_time := 1 |}); reflexivity).
  split; [exact Hinv|].
  exact (X5_get_after_put Z.of_nat c 2%Z "two" 3 Hinv).
Defined.

(** X6 at a cache with room that holds key 1: [put(2, "two")],
    [remove(2)]. *)
Lemma X6_put_then_remove_witness :
  let c : ThreadSafeLRUCache (Key:=Z) (Value:=string) :=
    {| capacity_ := 3;
       lru_list_ := [(1, {| key := 1%Z; value := "one"; access_time := 1 |})];
       index_ := <[1%Z := 1]> ∅;
       hit_count_ := 0; miss_count_ := 0; total_access_time_ns_ := 2 |} in
  cache_inv c ∧
  contains 2%Z (world c 3) = Some (false, world c 3) ∧
  (N.of_nat (length (lru_list_ c)) < capacity_ c)%N ∧
  ∃ c', run Z.of_nat [OpPut 2%Z "two"; OpRemove 2%Z] (world c 3)
        = Some ([RBool true; RBool true], world c' 6) ∧
        lru_list_ c' = lru_list_ c ∧ index_ c' = index_ c.
Proof.
  intros c.
  assert (cache_inv c) as Hinv
    by (apply (cache_inv_one_entry 3 1
                 {| key := 1%Z; value := "one"; access_time := 1 |}); reflexivity).
  assert (contains 2%Z (world c 3) = Some (false, world c 3)) as H2
    by (vm_compute; reflexivity).
  assert (N.of_nat (length (lru_list_ c)) < capacity_ c)%N as Hlt
    by reflexivity.
  split; [exact Hinv|]. split; [exact H2|]. split; [exact Hlt|].
  destruct (X6_put_then_remove Z.of_nat c 2%Z "two" 3 Hinv H2)
    as (c' & Hr & _ & _ & _ & Hroom & _).
  exists c'. split; [exact Hr|]. exact (Hroom Hlt).
Defined.



(** X9 at a cache that holds key 1: [get(1)] between the clock readings 3
    and 4. *)
Lemma X9_latency_accounting_witness :
  let c : ThreadSafeLRUCache (Key:=Z) (Value:=string) :=
    {| capacity_ := 3;
       lru_list_ := [(1, {| key := 1%Z; value := "one"; access_time := 1 |})];
       index_ := <[1%Z := 1]> ∅;
       hit_count_ := 0; miss_count_ := 0; total_access_time_ns_ := 2 |} in
  cache_inv c ∧
  ∃ r w', call Z.of_nat (OpGet 1%Z) (world c 3) = Some (r, w') ∧
          clock_reads w' = 5 ∧
          total_access_time_ns_ (self w')
          = fetch_add 2 (to_uint64 (Z.of_nat 4 - Z.of_nat 3)).
Proof.
  intros c.
  assert (cache_inv c) as Hinv
    by (apply (cache_inv_one_entry 3 1
                 {| key := 1%Z; value := "one"; access_time := 1 |}); reflexivity).
  split; [exact Hinv|].
  destruct (call Z.of_nat (OpGet 1%Z) (world c 3)) as [[r w']|] eqn:E.
  - exists r, w'. split; [reflexivity|].
    exact (X9_latency_accounting Z.of_nat c (OpGet 1%Z) 3 r w' Hinv E).
  - vm_compute in E. discriminate.
Defined.

(** X10 at capacity 2 and three pairs: the first inserted is evicted. *)
Lemma X10_fill_with_distinct_keys_witness :
  ∃ (c0 : ThreadSafeLRUCache (Key:=Z) (Value:=string)),
    construct 2 = inr c0 ∧
    NoDup [(1%Z, "one"); (2%Z, "two"); (3%Z, "three")].*1 ∧
    ∃ c' n',
      run Z.of_nat [OpPut 1%Z "one"; OpPut 2%Z "two"; OpPut 3%Z "three"]
        (world c0 0)
      = Some ([RBool true; RBool true; RBool true], world c' n') ∧
      entries c' = [(3%Z, "three"); (2%Z, "two")].
Proof.
  destruct (construct (Key:=Z) (Value:=string) 2) as [x|c0] eqn:Hc;
    [discriminate|].
  exists c0. split; [reflexivity|].
  assert (NoDup [(1%Z, "one"); (2%Z, "two"); (3%Z, "three")].*1) as Hnd.
  { simpl. apply NoDup_cons. split.
    { intros Hin. apply elem_of_cons in Hin as [Hin|Hin]; [discriminate|].
      apply list_elem_of_singleton in Hin. discriminate. }
    apply NoDup_cons. split; [|apply NoDup_singleton].
    intros Hin%list_elem_of_singleton. discriminate. }
  split; [exact Hnd|].
  destruct (X10_fill_with_distinct_keys Z.of_nat 2 c0
              [(1%Z, "one"); (2%Z, "two"); (3%Z, "three")] 0 Hc Hnd)
    as (c' & n' & Hr & He & _).
  exists c', n'. split; [exact Hr|exact He].
Defined.

(** X11 at a list of two nodes: moving the second to the front. *)
Lemma X11_move_to_front_witness :
  let e1 := {| key := 1%Z; value := "one"; access_time := 1 |} in
  let e2 := {| key := 2%Z; value := "two"; access_time := 4 |} in
  let c : ThreadSafeLRUCache (Key:=Z) (Value:=string) :=
    {| capacity_ := 3;
       lru_list_ := [(2, e2); (1, e1)];
       index_ := <[2%Z := 2]> (<[1%Z := 1]> ∅);
       hit_count_ := 0; miss_count_ := 0; total_access_time_ns_ := 2 |} in
  NoDup (lru_list_ c).*1 ∧
  list_deref 1 (lru_list_ c) = Some e1 ∧
  ∃ c', move_to_front_unsafe 1 (world c 6) = Some (tt, world c' 6) ∧
        lru_list_ c' = [(1, e1); (2, e2)].
Proof.
  intros e1 e2 c.
  assert (NoDup (lru_list_ c).*1) as Hnd.
  { simpl. apply NoDup_cons. split; [|apply NoDup_singleton].
    intros Hin%list_elem_of_singleton. discriminate. }
  assert (list_deref 1 (lru_list_ c) = Some e1) as Hd by reflexivity.
  split; [exact Hnd|]. split; [exact Hd|].
  destruct (X11_move_to_front c 1 e1 6 Hnd Hd) as (c' & Hm & Hl & _).
  exists c'. split; [exact Hm|exact Hl].
Defined.

(** X12 at a cache of capacity 3 that holds key 1: [put(2)], then two
    new keys. *)
Lemma X12_key_survives_after_put_witness :
  let c : ThreadSafeLRUCache (Key:=Z) (Value:=string) :=
    {| capacity_ := 3;
       lru_list_ := [(1, {| key := 1%Z; value := "one"; access_time := 1 |})];
       index_ := <[1%Z := 1]> ∅;
       hit_count_ := 0; miss_count_ := 0; total_access_time_ns_ := 2 |} in
  let kvs := [(3%Z, "three"); (4%Z, "four")] in
  cache_inv c ∧
  NoDup (2%Z :: kvs.*1) ∧
  (∀ k', k' ∈ kvs.*1 → k' ∉ keys c) ∧
  ∃ c' n' c'',
    run Z.of_nat [OpPut 2%Z "two"; OpPut 3%Z "three"; OpPut 4%Z "four"]
      (world c 3)
    = Some ([RBool true; RBool true; RBool true], world c' n') ∧
    get Z.of_nat 2%Z (world c' n') = Some (Some "two", world c'' (S (S n'))).
Proof.
  intros c kvs.
  assert (cache_inv c) as Hinv
    by (apply (cache_inv_one_entry 3 1
                 {| key := 1%Z; value := "one"; access_time := 1 |}); reflexivity).
  assert (NoDup (2%Z :: kvs.*1)) as Hnd.
  { simpl. apply NoDup_cons. split.
    { intros Hin. apply elem_of_cons in Hin as [Hin|Hin]; [discriminate|].
      apply list_elem_of_singleton in Hin. discriminate. }
    apply NoDup_cons. split; [|apply NoDup_singleton].
    intros Hin%list_elem_of_singleton. discriminate. }
  assert (∀ k', k' ∈ kvs.*1 → k' ∉ keys c) as Hfresh.
  { intros k' Hin Hk. apply list_elem_of_singleton in Hk. subst k'.
    simpl in Hin. apply elem_of_cons in Hin as [Hin|Hin]; [discriminate|].
    apply list_elem_of_singleton in Hin. discriminate. }
  split; [exact Hinv|]. split; [exact Hnd|]. split; [exact Hfresh|].
  destruct (X12_key_survives_after_put Z.of_nat c 2%Z "two" kvs 3
              Hinv Hnd Hfresh) as (c' & n' & c'' & Hr & Hg).
  exists c', n', c''. split; [exact Hr|]. rewrite Hg. reflexivity.
Defined.

(** X13 at a cache of capacity 3 that holds key 1: [get(1)], then one new
    key. *)
Lemma X13_key_survives_after_get_witness :
  let c : ThreadSafeLRUCache (Key:=Z) (Value:=string) :=
    {| capacity_ := 3;
       lru_list_ := [(1, {| key := 1%Z; value := "one"; access_time := 1 |})];
       index_ := <[1%Z := 1]> ∅;
       hit_count_ := 0; miss_count_ := 0; total_access_time_ns_ := 2 |} in
  let kvs := [(2%Z, "two")] in
  cache_inv c ∧
  contents c !! 1%Z = Some "one" ∧
  NoDup kvs.*1 ∧
  (∀ k', k' ∈ kvs.*1 → k' ∉ keys c) ∧
  ∃ c' n' c'',
    run Z.of_nat [OpGet 1%Z; OpPut 2%Z "two"] (world c 3)
    = Some ([RValue (Some "one"); RBool true], world c' n') ∧
    get Z.of_nat 1%Z (world c' n') = Some (Some "one", world c'' (S (S n'))).
Proof.
  intros c kvs.
  assert (cache_inv c) as Hinv
    by (apply (cache_inv_one_entry 3 1
                 {| key := 1%Z; value := "one"; access_time := 1 |}); reflexivity).
  assert (contents c !! 1%Z = Some "one") as Hk by (vm_compute; reflexivity).
  assert (NoDup kvs.*1) as Hnd by apply NoDup_singleton.
  assert (∀ k', k' ∈ kvs.*1 → k' ∉ keys c) as Hfresh.
  { intros k' Hin Hk'. apply list_elem_of_singleton in Hk'. subst k'.
    apply list_elem_of_singleton in Hin. discriminate. }
  split; [exact Hinv|]. split; [exact Hk|]. split; [exact Hnd|].
  split; [exact Hfresh|].
  destruct (X13_key_survives_after_get Z.of_nat c 1%Z "one" kvs 3
              Hinv Hk Hnd Hfresh) as (c' & n' & c'' & Hr & Hg).
  exists c', n', c''. split; [exact Hr|]. rewrite Hg. reflexivity.
Defined.

End interview.
